(** * Harmoniq key classifier

    A shallow embedding of the two build scripts of the repository,
    [make_key_tflite.py] (analytic template classifier) and
    [train_key_tflite.py] (synthetic chord data for the learned classifier),
    together with the properties of the key-profile rotation scheme, the
    sample synthesizer and the dataset builder.

    Numbers: NumPy [float32]/Python [float] values are idealised as real
    numbers ([R]); every statement "within floating tolerance" is proved
    as an exact statement over [R].  The closed computations of the
    analytic script are evaluated a second time in IEEE binary32 (module
    [Ieee]) as a cross-check of this idealisation.  Arrays are lists, a
    matrix is the list of its rows.  Python's integer [%] and [//] are
    [Z.modulo], [Z.div] (floor semantics), on naturals [Nat.modulo],
    [Nat.div]. *)

From Stdlib Require Import List ZArith Reals Lra Lia Permutation Bool Arith.
From Stdlib Require Import SpecFloat.
Import ListNotations.

Local Open Scope R_scope.

(* ================================================================= *)
(** ** Array primitives *)

Section Arrays.
Context {A : Type}.

(** [def rot(v,r): r%=12; return np.concatenate([v[r:],v[:r]])]
    (the same line in both scripts). *)
Definition rot (v : list A) (r : Z) : list A :=
  let r := (r mod 12)%Z in
  skipn (Z.to_nat r) v ++ firstn (Z.to_nat r) v.

(** [np.roll(a, shift)] on a one-dimensional array: elements move
    [shift] places towards higher indices, circularly. *)
Definition roll (a : list A) (shift : Z) : list A :=
  let n := length a in
  match n with
  | O => a
  | _ => let k := Z.to_nat (shift mod Z.of_nat n) in
         skipn (n - k) a ++ firstn (n - k) a
  end.

(** [v[i] = x]; an index out of range leaves the list as it is (the
    scripts only index below the length). *)
Fixpoint set_nth (i : nat) (x : A) (v : list A) : list A :=
  match v, i with
  | [], _ => []
  | _ :: v', O => x :: v'
  | a :: v', S i' => a :: set_nth i' x v'
  end.

(** [x[i], x[j] = x[j], x[i]] *)
Definition swap (d : A) (i j : nat) (x : list A) : list A :=
  set_nth i (nth j x d) (set_nth j (nth i x d) x).

(** Fancy indexing [xs[idx]]. *)
Definition take_idx (d : A) (xs : list A) (idx : list nat) : list A :=
  map (fun i => nth i xs d) idx.

(** One step of a left rotation, and [k] such steps: the reading of
    "RotateLeft(v, k) moves the first k elements to the end". *)
Definition rotl1 (v : list A) : list A :=
  match v with
  | [] => []
  | x :: v' => v' ++ [x]
  end.

Fixpoint RotateLeft (v : list A) (k : nat) : list A :=
  match k with
  | O => v
  | S k' => RotateLeft (rotl1 v) k'
  end.
End Arrays.

Fixpoint zipWith {A B C : Type} (f : A -> B -> C) (u : list A) (v : list B)
  : list C :=
  match u, v with
  | a :: u', b :: v' => f a b :: zipWith f u' v'
  | _, _ => []
  end.

Abbreviation vec := (list R) (only parsing).
Abbreviation matrix := (list (list R)) (only parsing).

Definition zeros (n : nat) : vec := repeat 0 n.
Definition zeros2 (rows cols : nat) : matrix := repeat (zeros cols) rows.

(** [u + v], [c * v], [v * c], [v / c] on arrays of one shape. *)
Definition vadd (u v : vec) : vec := zipWith Rplus u v.
Definition vscale (c : R) (v : vec) : vec := map (fun x => c * x) v.
Definition vmuls (v : vec) (c : R) : vec := map (fun x => x * c) v.
Definition vdiv (v : vec) (c : R) : vec := map (fun x => x / c) v.

(** [np.sum] *)
Fixpoint vsum (v : vec) : R :=
  match v with
  | [] => 0
  | x :: v' => x + vsum v'
  end.

Definition dot (u v : vec) : R := vsum (zipWith Rmult u v).

(** [np.linalg.norm] of a vector. *)
Definition norm (v : vec) : R := sqrt (dot v v).

(** [v[i] += x] *)
Fixpoint add_at (v : vec) (i : nat) (x : R) : vec :=
  match v, i with
  | [], _ => []
  | a :: v', O => (a + x) :: v'
  | a :: v', S i' => a :: add_at v' i' x
  end.

(** [np.clip(v, lo, None)] *)
Definition clip_min (v : vec) (lo : R) : vec := map (Rmax lo) v.

(** Column [j] of a matrix, and the assignment [W[:,j] = c]. *)
Definition col (j : nat) (W : matrix) : vec := map (fun row => nth j row 0) W.
Definition set_col (W : matrix) (j : nat) (c : vec) : matrix :=
  zipWith (fun row x => set_nth j x row) W c.

(** Row vector times matrix: entry [j] is the sum over [i] of
    [x[i] * W[i][j]]. *)
Definition vecmat (ncols : nat) (x : vec) (W : matrix) : vec :=
  map (fun j => vsum (zipWith (fun xi row => xi * nth j row 0) x W))
      (seq 0 ncols).

(* ================================================================= *)
(** ** make_key_tflite.py: the analytic classifier *)

Definition maj_lit : vec :=
  [6.35; 2.23; 3.48; 2.33; 4.38; 4.09; 2.52; 5.19; 2.39; 3.66; 2.29; 2.88].
Definition min_lit : vec :=
  [6.33; 2.68; 3.52; 5.38; 2.60; 3.53; 2.54; 4.75; 3.98; 2.69; 3.34; 3.17].

(** [maj=np.array([...]); maj=maj/np.linalg.norm(maj)], likewise [minr]. *)
Definition maj : vec := vdiv maj_lit (norm maj_lit).
Definition minr : vec := vdiv min_lit (norm min_lit).

(** The profile the scripts attach to key class [i]:
    [r=i//2; tm=maj if (i%2)==0 else minr; rot(tm,r)]. *)
Definition baseProfile (i : nat) : vec :=
  if (i mod 2 =? 0)%nat then maj else minr.
Definition rotatedProfile (i : nat) : vec :=
  rot (baseProfile i) (Z.of_nat (i / 2)).

(** [W=np.zeros((12,24)); b=np.zeros((24,))] followed by
    [for i in range(24): ... W[:,i]=rot(tm,r)]. *)
Definition W : matrix :=
  fold_left (fun W i => set_col W i (rotatedProfile i)) (seq 0 24)
            (zeros2 12 24).
Definition b : vec := zeros 24.

(** [model_fn(x)] for [x] of shape [1,12]: [matmul(x,Wc)+bc]; the value
    under the key ['logits']. *)
Definition model_fn (x : matrix) : matrix :=
  map (fun row => vadd (vecmat 24 row W) b) x.

(** The 24 scores of one chroma vector. *)
Definition logits (chroma : vec) : vec := nth 0 (model_fn [chroma]) [].

(* ================================================================= *)
(** ** The random sources

    The process owns two generators, Python's [random] and NumPy's global
    [np.random]; both are seeded once and then only advanced.  A generator
    is a stream of raw draws with a cursor; each library call consumes one
    raw draw and reduces it into the range the library documents, so a
    generator state stands for any sequence of outcomes the calls can
    have. *)

Record stream := mkStream { raw : nat -> N; pos : nat }.
Record rng := mkRng { py : stream; npr : stream }.

Definition advance (s : stream) : stream := mkStream (raw s) (S (pos s)).
Definition peek (s : stream) : N := raw s (pos s).

(** Computations that thread the generators. *)
Definition M (A : Type) : Type := rng -> A * rng.
Definition ret {A} (a : A) : M A := fun g => (a, g).
Definition bind {A B} (m : M A) (k : A -> M B) : M B :=
  fun g => let (a, g') := m g in k a g'.

Notation "x <- m ;; k" := (bind m (fun x => k))
  (at level 61, m at next level, right associativity).

Definition next_py : M N :=
  fun g => (peek (py g), mkRng (advance (py g)) (npr g)).
Definition next_np : M N :=
  fun g => (peek (npr g), mkRng (py g) (advance (npr g))).

Definition two53 : Z := 9007199254740992.

(** A double in [[0,1)] with 53 random bits. *)
Definition unit_double (x : N) : R := IZR (Z.of_N x mod two53) / IZR two53.

(** [random.random()] *)
Definition random_random : M R := x <- next_py ;; ret (unit_double x).
(** [random.uniform(a,b)] is [a + (b-a)*random()]. *)
Definition random_uniform (a c : R) : M R :=
  x <- random_random ;; ret (a + (c - a) * x).
(** An index below [n]. *)
Definition randbelow (n : nat) : M nat :=
  x <- next_py ;; ret (N.to_nat (x mod N.of_nat n)).
(** [random.randint(a,c)], both ends included. *)
Definition random_randint (a c : nat) : M nat :=
  k <- randbelow (c - a + 1) ;; ret (a + k)%nat.
(** [random.choice(seq)]; Python raises on an empty sequence, the scripts
    only choose from non-empty literals. *)
Definition random_choice {A} (d : A) (seq : list A) : M A :=
  k <- randbelow (length seq) ;; ret (nth k seq d).

(** [np.random.rand(n)]: [n] doubles in [[0,1)]. *)
Fixpoint np_random_rand (n : nat) : M vec :=
  match n with
  | O => ret []
  | S n' => x <- next_np ;; v <- np_random_rand n' ;; ret (unit_double x :: v)
  end.

(** [np.random.shuffle(x)]:
    [for i in reversed(range(1, n)): j = interval(0..i); swap x[i], x[j]]. *)
Definition np_interval (hi : nat) : M nat :=
  x <- next_np ;; ret (N.to_nat (x mod N.of_nat (hi + 1))).

Fixpoint shuffle_from (i : nat) (x : list nat) : M (list nat) :=
  match i with
  | O => ret x
  | S i' => j <- np_interval i ;; shuffle_from i' (swap O i j x)
  end.

Definition np_random_shuffle (x : list nat) : M (list nat) :=
  shuffle_from (length x - 1) x.

(* ================================================================= *)
(** ** train_key_tflite.py: synthetic samples and the dataset *)

(** Lines 4-5: the same literals and normalisation as [maj], [minr]. *)
Definition maj_t : vec := vdiv maj_lit (norm maj_lit).
Definition min_t : vec := vdiv min_lit (norm min_lit).

Definition maj_degrees : list (list nat) :=
  [[0;4;7];[2;5;9];[4;7;11];[5;9;0];[7;11;2];[9;0;4];[11;2;5]]%nat.
Definition min_degrees : list (list nat) :=
  [[0;3;7];[2;5;8];[3;7;10];[5;8;0];[7;10;2];[8;0;3];[10;2;5]]%nat.

(** The comparison [x < y] of two floats as a boolean. *)
Definition Rltb (x y : R) : bool := if Rlt_dec x y then true else false.

(** [for s in tri: v[(root+s)%12]+=1.0] from [v=np.zeros(12)]. *)
Definition triad_vec (root : nat) (tri : list nat) : vec :=
  fold_left (fun v s => add_at v ((root + s) mod 12)%nat 1) tri (zeros 12).

(** The pitch classes of the two colour tones of [chord_vec]. *)
Definition leading_pc (root : nat) (is_maj : bool) : nat :=
  ((root + (if is_maj then 11 else 10)) mod 12)%nat.
Definition subdom_pc (root : nat) : nat := ((root + 5) mod 12)%nat.

(** Lines 10-15: one triad of the mode's degree table on [root], then the
    two colour tones, each behind its own draw. *)
Definition chord_vec (root : nat) (is_maj : bool) : M vec :=
  let degs := if is_maj then maj_degrees else min_degrees in
  tri <- random_choice [] degs ;;
  let v := triad_vec root tri in
  x <- random_random ;;
  let v := if Rltb x 0.35 then add_at v (leading_pc root is_maj) 0.7 else v in
  y <- random_random ;;
  let v := if Rltb y 0.25 then add_at v (subdom_pc root) 0.4 else v in
  ret v.

(** [for _ in range(n): mix+=0.7*chord_vec(r,is_maj)] *)
Fixpoint mix_chords (n : nat) (r : nat) (is_maj : bool) (mix : vec) : M vec :=
  match n with
  | O => ret mix
  | S n' => c <- chord_vec r is_maj ;;
            mix_chords n' r is_maj (vadd mix (vscale 0.7 c))
  end.

(** Lines 17-20 of [synth_sample]: the mixture before clipping. *)
Definition synth_mix (cls : nat) : M vec :=
  let r := (cls / 2)%nat in
  let is_maj := (cls mod 2 =? 0)%nat in
  let base := rot (if is_maj then maj_t else min_t) (Z.of_nat r) in
  u <- random_uniform 0.8 1.2 ;;
  let mix := vmuls base u in
  n <- random_randint 1 3 ;;
  mix <- mix_chords n r is_maj mix ;;
  k <- random_choice 0%Z [-2; -1; 1; 2]%Z ;;
  let mix := vadd mix (vscale 0.15 (roll base k)) in
  noise <- np_random_rand 12 ;;
  let mix := vadd mix (vscale 0.05 noise) in
  ret mix.

(** The floor of [np.clip]. *)
Definition floor_const : R := 1e-6.

(** Line 21: [mix=np.clip(mix,1e-6,None); mix=mix/np.sum(mix)]. *)
Definition renormalize (mix : vec) : vec :=
  let mix := clip_min mix floor_const in
  vdiv mix (vsum mix).

(** [synth_sample(cls)] *)
Definition synth_sample (cls : nat) : M vec :=
  mix <- synth_mix cls ;; ret (renormalize mix).

(** [for _ in range(n_per_class): xs.append(synth_sample(c)); ys.append(c)] *)
Fixpoint class_loop (n : nat) (c : nat) (acc : list vec * list nat)
  : M (list vec * list nat) :=
  match n with
  | O => ret acc
  | S n' => x <- synth_sample c ;;
            class_loop n' c (fst acc ++ [x], snd acc ++ [c])
  end.

(** [for c in range(24): ...] over a list of classes. *)
Fixpoint classes_loop (cs : list nat) (n_per_class : nat)
  (acc : list vec * list nat) : M (list vec * list nat) :=
  match cs with
  | [] => ret acc
  | c :: cs' => acc' <- class_loop n_per_class c acc ;;
                classes_loop cs' n_per_class acc'
  end.

(** Lines 23-25: the samples and their labels before shuffling. *)
Definition gen_samples (n_per_class : nat) : M (list vec * list nat) :=
  classes_loop (seq 0 24) n_per_class ([], []).

(** [tf.keras.utils.to_categorical(ys, 24)]: one-hot rows. *)
Definition one_hot (num_classes c : nat) : vec :=
  map (fun k => if (k =? c)%nat then 1 else 0) (seq 0 num_classes).
Definition to_categorical (ys : list nat) (num_classes : nat) : matrix :=
  map (one_hot num_classes) ys.

(** [int(0.9*m)]: truncation of a non-negative product. *)
Definition split_point (m : nat) : nat := Z.to_nat (Int_part (0.9 * INR m)).

Definition dataset : Type := (matrix * matrix) * (matrix * matrix).

(** Lines 26-28: shuffle the indices, reorder, split. *)
Definition shuffle_split (xs : matrix) (ys : list nat) : M dataset :=
  let ysc := to_categorical ys 24 in
  idx <- np_random_shuffle (seq 0 (length xs)) ;;
  let xs' := take_idx [] xs idx in
  let ys' := take_idx [] ysc idx in
  let n := split_point (length xs') in
  ret ((firstn n xs', firstn n ys'), (skipn n xs', skipn n ys')).

(** [make_dataset(n_per_class)]: [((train_x, train_y), (val_x, val_y))]. *)
Definition make_dataset (n_per_class : nat) : M dataset :=
  s <- gen_samples n_per_class ;; shuffle_split (fst s) (snd s).

(* ================================================================= *)
(** ** The synthesize operation of the specification *)




(** The vector [chord_vec] returns when its three draws gave the triad
    [tri] and the doubles [x] and [y]. *)
Definition chord_of (root : nat) (is_maj : bool) (tri : list nat) (x y : R)
  : vec :=
  let v := triad_vec root tri in
  let v := if Rltb x 0.35 then add_at v (leading_pc root is_maj) 0.7 else v in
  if Rltb y 0.25 then add_at v (subdom_pc root) 0.4 else v.

(** [c] is a vector [chord_vec root is_maj] can return. *)
Definition is_chord (root : nat) (is_maj : bool) (c : vec) : Prop :=
  exists tri x y,
    In tri (if is_maj then maj_degrees else min_degrees) /\
    0 <= x < 1 /\ 0 <= y < 1 /\ c = chord_of root is_maj tri x y.


(* ================================================================= *)
(** ** Generators used in examples *)

(** A generator whose raw draws are all [c]. *)
Definition const_rng (c : N) : rng :=
  mkRng (mkStream (fun _ => c) 0) (mkStream (fun _ => c) 0).

(** A generator with varying draws. *)
Definition demo_rng : rng :=
  mkRng (mkStream (fun n => (N.of_nat n * 2654435761 + 40503)%N) 0)
        (mkStream (fun n => (N.of_nat n * 6364136223846793005
                             + 1442695040888963407)%N) 0).

(* ================================================================= *)
(** ** Predicates of the proofs *)

(** [X] has [nr] rows of [nc] entries. *)
Definition dims (nr nc : nat) (X : matrix) : Prop :=
  length X = nr /\ Forall (fun row => length row = nc) X.

(** Every entry of [v] lies in [[lo, hi]]. *)
Definition between (lo hi : R) (v : vec) : Prop :=
  Forall (fun x => lo <= x <= hi) v.

(** [post m P]: whatever the state of the generators, the value [m]
    returns satisfies [P]. *)
Definition post {A} (m : M A) (P : A -> Prop) : Prop :=
  forall g, P (fst (m g)).

(* ================================================================= *)
(** ** The profile literals in hundredths

    The correlations of the 24 templates are decided on the integer
    literals; [centi] maps them back to the reals. *)

Definition maj_centi : list Z :=
  [635; 223; 348; 233; 438; 409; 252; 519; 239; 366; 229; 288]%Z.
Definition min_centi : list Z :=
  [633; 268; 352; 538; 260; 353; 254; 475; 398; 269; 334; 317]%Z.

Definition centi (z : Z) : R := IZR z / 100.

Definition base_centi (i : nat) : list Z :=
  if (i mod 2 =? 0)%nat then maj_centi else min_centi.
Definition profile_centi (i : nat) : list Z :=
  rot (base_centi i) (Z.of_nat (i / 2)).

Fixpoint dotZ (u v : list Z) : Z :=
  match u, v with
  | a :: u', c :: v' => (a * c + dotZ u' v')%Z
  | _, _ => 0%Z
  end.

(** Cauchy-Schwarz with a margin between templates [i] and [j], in
    integers: the square of their dot product is below [0.97 ^ 2] times the
    product of the squared norms. *)
Definition strictly_below (i j : nat) : bool :=
  (10000 * (dotZ (profile_centi i) (profile_centi j)) ^ 2
   <? 9409 * (dotZ (base_centi i) (base_centi i)
              * dotZ (base_centi j) (base_centi j)))%Z.

Definition all_pairs_below : bool :=
  forallb (fun i => forallb (fun j => (i =? j)%nat || strictly_below i j)
                            (seq 0 24))
          (seq 0 24).

(** The norm of the literal profile of the parity of [i]. *)
Definition base_norm (i : nat) : R :=
  norm (map centi (base_centi i)).

(* ================================================================= *)
(** ** The analytic script in binary32

    The same construction evaluated in IEEE arithmetic, as a cross-check of
    the idealisation: a literal [z/100] is read as the nearest double and
    stored as [float32]; sums are accumulated from left to right in
    [float32]. *)

Module Ieee.

Definition of_Z64 (z : Z) : spec_float := binary_normalize 53 1024 z 0 false.

(** The double nearest to [z / 100]. *)
Definition literal64 (z : Z) : spec_float :=
  SFdiv 53 1024 (of_Z64 z) (of_Z64 100).

(** [dtype=np.float32]: round to nearest, ties to even. *)
Definition to_f32 (x : spec_float) : spec_float :=
  match x with
  | S754_finite s m e => binary_round 24 128 s m e
  | _ => x
  end.

Definition zero : spec_float := S754_zero false.
Definition one : spec_float := SFone 24 128.

Fixpoint dot_from (acc : spec_float) (u v : list spec_float) : spec_float :=
  match u, v with
  | a :: u', c :: v' => dot_from (SFadd 24 128 acc (SFmul 24 128 a c)) u' v'
  | _, _ => acc
  end.

Definition dot (u v : list spec_float) : spec_float := dot_from zero u v.
Definition norm (v : list spec_float) : spec_float := SFsqrt 24 128 (dot v v).

Definition normalized (lit : list Z) : list spec_float :=
  let v := map (fun z => to_f32 (literal64 z)) lit in
  let n := norm v in
  map (fun x => SFdiv 24 128 x n) v.

Definition maj : list spec_float := normalized maj_centi.
Definition minr : list spec_float := normalized min_centi.

Definition rotatedProfile (i : nat) : list spec_float :=
  rot (if (i mod 2 =? 0)%nat then maj else minr) (Z.of_nat (i / 2)).

Definition templates : list (nat * list spec_float) :=
  map (fun i => (i, rotatedProfile i)) (seq 0 24).

(** Template [i] correlates strictly better with itself than with any
    other template. *)
Definition argmax_ok : bool :=
  forallb (fun it =>
    forallb (fun jt =>
      (fst it =? fst jt)%nat
      || SFltb (dot (snd it) (snd jt)) (dot (snd it) (snd it)))
      templates)
    templates.

(** The squares of each template sum to 1, to the float just below 1 or
    to the float just above 1. *)
Definition unit_ok : bool :=
  forallb (fun it =>
    SFleb (SFpred 24 128 one) (dot (snd it) (snd it))
    && SFleb (dot (snd it) (snd it)) (SFsucc 24 128 one))
    templates.

End Ieee.

(** In binary64, [0.9 * m] lies in [[q, q + 1)] for [q = 9 * m / 10], so
    [int(0.9 * m)] is [q]. *)
Definition double_split_ok (m : Z) : bool :=
  let q := (9 * m / 10)%Z in
  let nine_tenths := SFdiv 53 1024 (Ieee.of_Z64 9) (Ieee.of_Z64 10) in
  let p := SFmul 53 1024 nine_tenths (Ieee.of_Z64 m) in
  SFleb (Ieee.of_Z64 q) p && SFltb p (Ieee.of_Z64 (q + 1)).

(* ================================================================= *)
(** ** Draws a computation makes *)

(** [g'] is [g] after [dpy] draws from Python's generator and [dnp] draws
    from NumPy's: the raw streams are the same, the cursors have moved. *)
Definition advanced (dpy dnp : nat) (g g' : rng) : Prop :=
  raw (py g') = raw (py g) /\ pos (py g') = (pos (py g) + dpy)%nat /\
  raw (npr g') = raw (npr g) /\ pos (npr g') = (pos (npr g) + dnp)%nat.

(** [draws m P]: from every state, [m] returns a value [a] after [dpy] and
    [dnp] draws with [P a dpy dnp]. *)
Definition draws {A} (m : M A) (P : A -> nat -> nat -> Prop) : Prop :=
  forall g, exists dpy dnp,
    P (fst (m g)) dpy dnp /\ advanced dpy dnp g (snd (m g)).

(* ================================================================= *)
(** ** Rows of the dataset *)

(** A renormalised chroma vector: 12 entries, none below the floor,
    summing to 1. *)
Definition is_chroma (v : vec) : Prop :=
  length v = 12%nat /\ Forall (fun x => floor_const <= x) v /\ vsum v = 1.

(** A one-hot label row over the 24 classes. *)
Definition is_label_row (row : vec) : Prop :=
  exists c, (c < 24)%nat /\ row = one_hot 24 c.

(* ================================================================= *)
(** ** train_key_tflite.py: the trained network and its export *)

(** The layers of [model.layers]; a [Dense] layer carries what
    [get_weights()] returns, its kernel and its bias. *)
Inductive layer : Type :=
| InputLayer (width : nat)
| Dense (kernel : list (list R)) (bias : list R)
| Dropout (rate : R).

(** [isinstance(L, tf.keras.layers.Dense)] *)
Definition is_dense (L : layer) : bool :=
  match L with
  | Dense _ _ => true
  | _ => false
  end.

(** Line 41: [[L for L in model.layers if isinstance(L, Dense)]]. *)
Definition dense_layers (layers : list layer) : list layer :=
  filter is_dense layers.

(** [l[-k]] for [k >= 1]; [None] stands for Python's [IndexError]. *)
Definition from_end {A} (l : list A) (k : nat) : option A :=
  if (k <=? length l)%nat then nth_error l (length l - k) else None.

(** [L.get_weights()] unpacked into two names; only a [Dense] layer has
    exactly a kernel and a bias. *)
Definition get_weights (L : layer) : option (list (list R) * list R) :=
  match L with
  | Dense kernel bias => Some (kernel, bias)
  | _ => None
  end.

(** Lines 41-43: the weights of the last two [Dense] layers. *)
Definition frozen_weights (layers : list layer)
  : option ((list (list R) * list R) * (list (list R) * list R)) :=
  match from_end (dense_layers layers) 2, from_end (dense_layers layers) 1 with
  | Some L1, Some L2 =>
      match get_weights L1, get_weights L2 with
      | Some w1, Some w2 => Some (w1, w2)
      | _, _ => None
      end
  | _, _ => None
  end.

(** Lines 32-36: the layers of the network the script builds, around the
    weights training leaves in its two [Dense] layers. *)
Definition script_layers (W1 : list (list R)) (b1 : list R)
  (W2 : list (list R)) (b2 : list R) : list layer :=
  [InputLayer 12; Dense W1 b1; Dropout 0.10; Dense W2 b2].

Module Train.

(** [tf.nn.relu] *)
Definition relu (v : vec) : vec := map (Rmax 0) v.

(** The hidden pre-activations [matmul(x,W1c)+b1c] of one input row. *)
Definition pre_activation (W1 : matrix) (b1 : vec) (row : vec) : vec :=
  vadd (vecmat 64 row W1) b1.

(** Lines 49-53, [model_fn(x)] for [x] of shape [1,12]: the value under
    the key ['logits']. *)
Definition model_fn (W1 : matrix) (b1 : vec) (W2 : matrix) (b2 : vec)
  (x : matrix) : matrix :=
  map (fun row =>
         let y1 := pre_activation W1 b1 row in
         let y1 := relu y1 in
         vadd (vecmat 24 y1 W2) b2)
      x.

End Train.

(* ================================================================= *)
(** ** Concrete runs *)

Example rot_by_2 :
  rot [0; 1; 2; 3; 4; 5; 6; 7; 8; 9; 10; 11]%nat 2
  = [2; 3; 4; 5; 6; 7; 8; 9; 10; 11; 0; 1]%nat.
Proof. reflexivity. Qed.

Example rot_by_minus_1 :
  rot [0; 1; 2; 3; 4; 5; 6; 7; 8; 9; 10; 11]%nat (-1)
  = [11; 0; 1; 2; 3; 4; 5; 6; 7; 8; 9; 10]%nat.
Proof. reflexivity. Qed.

Example rot_by_26 :
  rot [0; 1; 2; 3; 4; 5; 6; 7; 8; 9; 10; 11]%nat 26
  = rot [0; 1; 2; 3; 4; 5; 6; 7; 8; 9; 10; 11]%nat 2.
Proof. reflexivity. Qed.

Example roll_by_1 : roll [0; 1; 2; 3; 4]%nat 1 = [4; 0; 1; 2; 3]%nat.
Proof. reflexivity. Qed.

Example roll_by_minus_2 :
  roll [0; 1; 2; 3; 4; 5; 6; 7; 8; 9; 10; 11]%nat (-2)
  = [2; 3; 4; 5; 6; 7; 8; 9; 10; 11; 0; 1]%nat.
Proof. reflexivity. Qed.

Example swap_ends : swap O 0 3 [10; 11; 12; 13]%nat = [13; 11; 12; 10]%nat.
Proof. reflexivity. Qed.

Example shuffle_run :
  fst (np_random_shuffle (seq 0 6) demo_rng) = [0; 4; 3; 5; 2; 1]%nat.
Proof. vm_compute. reflexivity. Qed.

Example randint_run : fst (random_randint 1 3 demo_rng) = 1%nat.
Proof. vm_compute. reflexivity. Qed.

Example choice_run :
  fst (random_choice [] maj_degrees demo_rng) = [2; 5; 9]%nat.
Proof. vm_compute. reflexivity. Qed.

Example tonic_triad_of_D :
  triad_vec 2 [0; 4; 7]%nat = [0; 0; 1; 0; 0; 0; 1; 0; 0; 1; 0; 0].
Proof. unfold triad_vec. simpl. repeat (f_equal; try lra). Qed.

(* ================================================================= *)
(** ** Rotation *)

Section RotFacts.
Context {A : Type}.
Implicit Types (v : list A) (r : Z) (k i : nat).

Lemma RotateLeft_split v k :
  (k <= length v)%nat -> RotateLeft v k = skipn k v ++ firstn k v.
Proof.
  revert v; induction k as [|k IH]; intros v Hk; simpl.
  - now rewrite app_nil_r.
  - destruct v as [|x v']; simpl in *; [lia|].
    rewrite IH by (rewrite length_app; simpl; lia).
    rewrite skipn_app, firstn_app.
    replace (k - length v')%nat with O by lia.
    simpl. rewrite app_nil_r, <- app_assoc. reflexivity.
Qed.

Lemma rot_length v r : length (rot v r) = length v.
Proof.
  unfold rot. rewrite length_app, length_skipn, length_firstn. lia.
Qed.

Lemma mod12_nat r : (Z.to_nat (r mod 12) < 12)%nat.
Proof. pose proof (Z.mod_pos_bound r 12); lia. Qed.

(** Entry [i] of the rotation is entry [(i + r) mod 12] of the array. *)
Lemma nth_rot v r i d :
  length v = 12%nat -> (i < 12)%nat ->
  nth i (rot v r) d = nth ((i + Z.to_nat (r mod 12)) mod 12) v d.
Proof.
  intros Hv Hi. unfold rot.
  pose proof (mod12_nat r) as Hk.
  set (k := Z.to_nat (r mod 12)) in *.
  destruct (Nat.lt_ge_cases i (12 - k)) as [Hlt|Hge].
  - rewrite app_nth1 by (rewrite length_skipn; lia).
    rewrite nth_skipn, Nat.mod_small by lia. f_equal; lia.
  - rewrite app_nth2 by (rewrite length_skipn; lia).
    rewrite length_skipn, nth_firstn, Hv.
    replace (i - (12 - k) <? k)%nat with true
      by (symmetry; apply Nat.ltb_lt; lia).
    f_equal.
    replace (i + k)%nat with ((i - (12 - k)) + 1 * 12)%nat by lia.
    rewrite Nat.Div0.mod_add, Nat.mod_small; lia.
Qed.

Lemma rot_Permutation v r : Permutation (rot v r) v.
Proof.
  unfold rot. rewrite Permutation_app_comm, firstn_skipn. reflexivity.
Qed.

Lemma rot_map {B} (f : A -> B) v r : rot (map f v) r = map f (rot v r).
Proof.
  unfold rot. now rewrite map_app, skipn_map, firstn_map.
Qed.
End RotFacts.

Lemma wrap_floor r : (((r mod 12) + 12) mod 12 = r mod 12)%Z.
Proof.
  replace ((r mod 12) + 12)%Z with (r mod 12 + 1 * 12)%Z by lia.
  rewrite Z.mod_add by lia. apply Z.mod_mod; lia.
Qed.

Lemma wrap_trunc r : (Z.rem (Z.rem r 12 + 12) 12 = r mod 12)%Z.
Proof.
  pose proof (Z.rem_bound_abs r 12 ltac:(lia)) as Hb.
  assert (Hs : (0 <= Z.rem r 12 + 12)%Z) by lia.
  rewrite Z.rem_mod_nonneg by lia.
  pose proof (Z.quot_rem' r 12) as Hq.
  replace (Z.rem r 12 + 12)%Z with (r + (1 - Z.quot r 12) * 12)%Z by lia.
  apply Z.mod_add; lia.
Qed.

Lemma vdiv_length v c : length (vdiv v c) = length v.
Proof. apply length_map. Qed.

Lemma maj_length : length maj = 12%nat.
Proof. unfold maj. now rewrite vdiv_length. Qed.

Lemma minr_length : length minr = 12%nat.
Proof. unfold minr. now rewrite vdiv_length. Qed.

Lemma baseProfile_length i : length (baseProfile i) = 12%nat.
Proof.
  unfold baseProfile. destruct (i mod 2 =? 0)%nat;
    [apply maj_length | apply minr_length].
Qed.

Lemma rotatedProfile_length i : length (rotatedProfile i) = 12%nat.
Proof. unfold rotatedProfile. rewrite rot_length. apply baseProfile_length. Qed.

Lemma tonic_mod12 i : (i < 24)%nat -> (Z.of_nat (i / 2) mod 12 = Z.of_nat (i / 2))%Z.
Proof.
  intros Hi. apply Z.mod_small.
  pose proof (Nat.Div0.div_lt_upper_bound i 2 12 ltac:(lia)). lia.
Qed.

Lemma rot_RotateLeft {A} (v : list A) (r : Z) :
  length v = 12%nat -> rot v r = RotateLeft v (Z.to_nat (r mod 12)).
Proof.
  intros Hv.
  rewrite RotateLeft_split by (pose proof (mod12_nat r); lia).
  reflexivity.
Qed.

Lemma rotatedProfile_RotateLeft k :
  (k < 24)%nat -> rotatedProfile k = RotateLeft (baseProfile k) (k / 2).
Proof.
  intros Hk. unfold rotatedProfile.
  rewrite rot_RotateLeft by apply baseProfile_length.
  now rewrite tonic_mod12, Nat2Z.id.
Qed.

Lemma parity_even i : (i mod 2 =? 0)%nat = Nat.even i.
Proof.
  destruct (Nat.even i) eqn:He.
  - apply Nat.even_spec in He. destruct He as [m ->].
    replace (2 * m)%nat with (m * 2)%nat by lia.
    now rewrite Nat.Div0.mod_mul.
  - assert (Ho : Nat.odd i = true) by (now rewrite <- Nat.negb_even, He).
    apply Nat.odd_spec in Ho. destruct Ho as [m ->].
    replace (2 * m + 1)%nat with (1 + m * 2)%nat by lia.
    now rewrite Nat.Div0.mod_add.
Qed.

(** C7. [rot] wraps its amount modulo 12 for every integer [r], negative
    or beyond 12: on a 12-element array it is the left rotation by
    [((r mod 12) + 12) mod 12] places (with the floor remainder as well as
    with the truncating one), and the profile of a key class below 24 is
    the left rotation of the base profile of its parity by [keyClass / 2]. *)
Theorem rot_wraps_mod12 (A : Type) (v : list A) (r : Z) (keyClass : nat)
  (Hv : length v = 12%nat) (Hk : (keyClass < 24)%nat) :
  rot v r = RotateLeft v (Z.to_nat (((r mod 12) + 12) mod 12)) /\
  rot v r = RotateLeft v (Z.to_nat (Z.rem (Z.rem r 12 + 12) 12)) /\
  rot v (r + 12) = rot v r /\
  rotatedProfile keyClass
  = RotateLeft (baseProfile keyClass) (keyClass / 2).
Proof.
  pose proof (rot_RotateLeft v r Hv) as Hrot.
  repeat split.
  - now rewrite wrap_floor.
  - now rewrite wrap_trunc.
  - unfold rot. replace (r + 12)%Z with (r + 1 * 12)%Z by lia.
    now rewrite Z.mod_add by lia.
  - now apply rotatedProfile_RotateLeft.
Qed.

Lemma rot_wraps_mod12_witness :
  length [0;1;2;3;4;5;6;7;8;9;10;11]%nat = 12%nat /\ (5 < 24)%nat /\
  rot [0;1;2;3;4;5;6;7;8;9;10;11]%nat (-3)
  = RotateLeft [0;1;2;3;4;5;6;7;8;9;10;11]%nat
      (Z.to_nat (((-3 mod 12) + 12) mod 12)) /\
  rot [0;1;2;3;4;5;6;7;8;9;10;11]%nat (-3)
  = [9;10;11;0;1;2;3;4;5;6;7;8]%nat.
Proof.
  split; [reflexivity|]. split; [lia|]. split.
  - exact (proj1 (rot_wraps_mod12 nat [0;1;2;3;4;5;6;7;8;9;10;11]%nat (-3) 5
                    eq_refl ltac:(lia))).
  - reflexivity.
Defined.

(* ================================================================= *)
(** ** The profiles *)

Lemma dot_maj_lit : dot maj_lit maj_lit = 164.6799.
Proof. unfold dot, maj_lit; simpl; lra. Qed.

Lemma dot_min_lit : dot min_lit min_lit = 181.1021.
Proof. unfold dot, min_lit; simpl; lra. Qed.

Lemma sqrt_between (x lo hi : R) :
  0 <= lo -> 0 <= hi -> lo * lo < x -> x < hi * hi -> lo < sqrt x < hi.
Proof.
  intros Hlo Hhi H1 H2.
  assert (Hx : 0 <= x) by nra.
  split; apply Rsqr_incrst_0; try apply sqrt_pos; try assumption;
    rewrite Rsqr_sqrt by assumption; unfold Rsqr; assumption.
Qed.

Lemma norm_maj_bounds : 12.83 < norm maj_lit < 12.84.
Proof.
  unfold norm. rewrite dot_maj_lit. apply sqrt_between; lra.
Qed.

Lemma norm_min_bounds : 13.45 < norm min_lit < 13.46.
Proof.
  unfold norm. rewrite dot_min_lit. apply sqrt_between; lra.
Qed.

Lemma rotatedProfile_nth k i :
  (k < 24)%nat -> (i < 12)%nat ->
  nth i (rotatedProfile k) 0 = nth ((i + k / 2) mod 12) (baseProfile k) 0.
Proof.
  intros Hk Hi. unfold rotatedProfile.
  rewrite nth_rot by (auto using baseProfile_length).
  now rewrite tonic_mod12, Nat2Z.id.
Qed.

(** Where the left rotation puts the weight of the base profile's pitch
    class 0: at index [(12 - tonic) mod 12]. *)
Lemma rotatedProfile_tonic_weight k :
  (k < 24)%nat ->
  nth ((12 - k / 2) mod 12) (rotatedProfile k) 0 = nth 0 (baseProfile k) 0.
Proof.
  intros Hk.
  pose proof (Nat.Div0.div_lt_upper_bound k 2 12 ltac:(lia)) as Ht.
  rewrite rotatedProfile_nth by (auto using Nat.mod_upper_bound).
  f_equal. rewrite Nat.Div0.add_mod_idemp_l.
  replace (12 - k / 2 + k / 2)%nat with 12%nat by lia. reflexivity.
Qed.

(** C4. At key class 2 (tonic 1, major) the entry of the rotated profile
    at index [tonic] is the base profile's entry 2, which differs from its
    entry 0; the tonic weight sits at index 11.  [chord_vec]'s triad loop,
    in contrast, puts scale degree 0 of the tonic triad at index [tonic]. *)
Theorem rotatedProfile_tonic_misplaced :
  nth 1 (rotatedProfile 2) 0 = nth 2 (baseProfile 2) 0 /\
  nth 1 (rotatedProfile 2) 0 <> nth 0 (baseProfile 2) 0 /\
  nth 11 (rotatedProfile 2) 0 = nth 0 (baseProfile 2) 0 /\
  nth 1 (triad_vec 1 [0; 4; 7]%nat) 0 = 1.
Proof.
  pose proof norm_maj_bounds as [Hlo Hhi].
  assert (H1 : nth 1 (rotatedProfile 2) 0 = nth 2 (baseProfile 2) 0)
    by (rewrite rotatedProfile_nth by lia; reflexivity).
  split; [|split; [|split]].
  - exact H1.
  - rewrite H1. unfold baseProfile, maj, vdiv, maj_lit. simpl.
    intros Heq.
    apply (Rmult_eq_compat_r (norm maj_lit)) in Heq.
    unfold Rdiv in Heq. rewrite !Rmult_assoc, Rinv_l in Heq; lra.
  - rewrite rotatedProfile_nth by lia. reflexivity.
  - unfold triad_vec. simpl. lra.
Qed.

(* ================================================================= *)
(** ** The weight matrix *)

Section SetNth.
Context {A : Type}.
Implicit Types (v : list A) (i j : nat).

Lemma set_nth_length i (x : A) v : length (set_nth i x v) = length v.
Proof.
  revert i; induction v as [|a v IH]; intros [|i]; simpl; auto.
Qed.

Lemma nth_set_nth_same i (x d : A) v :
  (i < length v)%nat -> nth i (set_nth i x v) d = x.
Proof.
  revert i; induction v as [|a v IH]; intros [|i] Hi; simpl in *;
    try lia; auto. apply IH; lia.
Qed.

Lemma nth_set_nth_other i j (x d : A) v :
  i <> j -> nth j (set_nth i x v) d = nth j v d.
Proof.
  revert i j; induction v as [|a v IH]; intros [|i] [|j] Hij; simpl;
    try congruence; auto.
Qed.

Lemma set_nth_nth i (d : A) v : set_nth i (nth i v d) v = v.
Proof.
  revert i; induction v as [|a v IH]; intros [|i]; simpl; auto.
  now rewrite IH.
Qed.

Lemma set_nth_Permutation i (x d : A) v :
  (i < length v)%nat ->
  Permutation (x :: v) (nth i v d :: set_nth i x v).
Proof.
  revert i; induction v as [|a v IH]; intros [|i] Hi; simpl in *; try lia.
  - apply perm_swap.
  - rewrite perm_swap. rewrite (IH i) by lia. apply perm_swap.
Qed.

Lemma swap_Permutation (d : A) i j v :
  (i < length v)%nat -> (j < length v)%nat -> Permutation (swap d i j v) v.
Proof.
  intros Hi Hj. unfold swap.
  destruct (Nat.eq_dec i j) as [->|Hij].
  - now rewrite !set_nth_nth.
  - apply (Permutation_cons_inv (a := nth i v d)).
    rewrite (set_nth_Permutation j (nth i v d) d v Hj).
    rewrite (set_nth_Permutation i (nth j v d) d
               (set_nth j (nth i v d) v))
      by (now rewrite set_nth_length).
    rewrite nth_set_nth_other by congruence.
    reflexivity.
Qed.
End SetNth.

Lemma zeros_length n : length (zeros n) = n.
Proof. apply repeat_length. Qed.

Lemma zeros2_dims nr nc : dims nr nc (zeros2 nr nc).
Proof.
  split; [apply repeat_length|].
  apply Forall_forall. intros row Hin.
  apply repeat_spec in Hin. subst. apply zeros_length.
Qed.

Lemma zipWith_length {A B C} (f : A -> B -> C) u v :
  length (zipWith f u v) = Nat.min (length u) (length v).
Proof.
  revert v; induction u as [|a u IH]; intros [|c v]; simpl; auto.
Qed.

Lemma nth_zipWith {A B C} (f : A -> B -> C) u v i da db dc :
  (i < length u)%nat -> (i < length v)%nat ->
  nth i (zipWith f u v) dc = f (nth i u da) (nth i v db).
Proof.
  revert v i; induction u as [|a u IH]; intros [|c v] [|i] Hu Hv;
    simpl in *; try lia; auto. apply IH; lia.
Qed.

Lemma set_col_rows nc X j c :
  Forall (fun row => length row = nc) X ->
  Forall (fun row => length row = nc) (set_col X j c).
Proof.
  intros Hr. revert c.
  induction Hr as [|row X Hrow _ IH]; intros [|x c]; simpl;
    try (constructor; fail).
  constructor; [now rewrite set_nth_length | apply IH].
Qed.

Lemma set_col_dims nr nc X j c :
  dims nr nc X -> length c = nr -> dims nr nc (set_col X j c).
Proof.
  intros [Hl Hr] Hc. split; [|now apply set_col_rows].
  unfold set_col. rewrite zipWith_length. lia.
Qed.

Lemma col_set_col_same nr nc X j c :
  dims nr nc X -> length c = nr -> (j < nc)%nat -> col j (set_col X j c) = c.
Proof.
  intros [Hl Hr]. revert nr c Hl.
  induction Hr as [|row X Hrow _ IH]; intros nr [|x c] Hl Hc Hj; simpl in *;
    subst; try discriminate; try reflexivity.
  rewrite nth_set_nth_same by assumption.
  f_equal. apply (IH (length X)); auto; lia.
Qed.

Lemma col_set_col_other X i j c :
  length c = length X -> i <> j -> col j (set_col X i c) = col j X.
Proof.
  revert c; induction X as [|row X IH]; intros [|x c] Hc Hij; simpl in *;
    try discriminate; try reflexivity.
  rewrite nth_set_nth_other by assumption.
  f_equal. apply IH; auto; lia.
Qed.

Section ColumnLoop.
Variables (nr nc : nat) (f : nat -> vec).
Hypothesis f_length : forall i, length (f i) = nr.

Let step (X : matrix) (i : nat) : matrix := set_col X i (f i).

Lemma loop_dims js X : dims nr nc X -> dims nr nc (fold_left step js X).
Proof.
  revert X; induction js as [|a js IH]; intros X HX; simpl; auto.
  apply IH. apply set_col_dims; auto.
Qed.

Lemma loop_keeps_col js X j :
  dims nr nc X -> ~ In j js -> col j (fold_left step js X) = col j X.
Proof.
  revert X; induction js as [|a js IH]; intros X HX Hj; simpl in *; auto.
  rewrite IH; [| apply set_col_dims; auto | tauto].
  apply col_set_col_other; [|intuition].
  rewrite f_length. symmetry. apply HX.
Qed.

Lemma loop_sets_col js X j :
  dims nr nc X -> NoDup js -> In j js -> (j < nc)%nat ->
  col j (fold_left step js X) = f j.
Proof.
  revert X; induction js as [|a js IH]; intros X HX Hnd Hin Hj;
    simpl in *; [tauto|].
  inversion Hnd as [|? ? Hna Hnd']; subst.
  destruct (Nat.eq_dec a j) as [->|Hne].
  - rewrite loop_keeps_col; [| apply set_col_dims; auto | exact Hna].
    eapply col_set_col_same; eauto.
  - destruct Hin as [Heq|Hin]; [congruence|].
    apply IH; auto. apply set_col_dims; auto.
Qed.
End ColumnLoop.

Lemma W_dims : dims 12 24 W.
Proof.
  unfold W. apply loop_dims with (f := rotatedProfile).
  - apply rotatedProfile_length.
  - apply zeros2_dims.
Qed.

Lemma W_col i : (i < 24)%nat -> col i W = rotatedProfile i.
Proof.
  intros Hi. unfold W.
  apply loop_sets_col with (nr := 12%nat) (nc := 24%nat)
                           (f := rotatedProfile); auto.
  - apply rotatedProfile_length.
  - apply zeros2_dims.
  - apply seq_NoDup.
  - apply in_seq. lia.
Qed.

Lemma vecmat_entry x X j :
  vsum (zipWith (fun xi row => xi * nth j row 0) x X) = dot x (col j X).
Proof.
  unfold dot. revert X; induction x as [|a x IH]; intros [|row X]; simpl;
    auto. now rewrite IH.
Qed.

Lemma nth_map_seq {B} (f : nat -> B) n j d :
  (j < n)%nat -> nth j (map f (seq 0 n)) d = f j.
Proof.
  intros Hj.
  rewrite (nth_indep _ d (f O)) by (rewrite length_map, length_seq; lia).
  rewrite (map_nth f), seq_nth by lia. reflexivity.
Qed.

Lemma logits_entry x j :
  (j < 24)%nat ->
  nth j (logits x) 0 = dot x (col j W) + nth j b 0.
Proof.
  intros Hj. unfold logits, model_fn. cbn [map nth].
  unfold vadd.
  rewrite (nth_zipWith Rplus _ _ j 0 0 0).
  - f_equal. unfold vecmat.
    rewrite nth_map_seq by lia. apply vecmat_entry.
  - unfold vecmat. rewrite length_map, length_seq; lia.
  - unfold b. rewrite zeros_length. lia.
Qed.

(** C1. The build of the analytic classifier yields a 12x24 matrix whose
    column [i] is [rotatedProfile i], the left rotation by [i / 2] of the
    normalised major literal for even [i] and of the minor one for odd
    [i]; the bias has 24 entries, all zero; and the score of a chroma
    vector [x] at [i] is its dot product with that column plus the bias. *)
Theorem analytic_build_columns (i : nat) (x : vec) (Hi : (i < 24)%nat) :
  dims 12 24 W /\
  col i W = rotatedProfile i /\
  rotatedProfile i
  = RotateLeft (vdiv (if Nat.even i then maj_lit else min_lit)
                     (norm (if Nat.even i then maj_lit else min_lit)))
               (i / 2) /\
  length b = 24%nat /\ nth i b 0 = 0 /\
  length (logits x) = 24%nat /\
  nth i (logits x) 0 = dot x (col i W) + nth i b 0 /\
  nth i (logits x) 0 = dot x (rotatedProfile i).
Proof.
  assert (Hb : nth i b 0 = 0) by (unfold b, zeros; apply nth_repeat).
  split; [apply W_dims|]. split; [now apply W_col|]. split.
  { rewrite rotatedProfile_RotateLeft by assumption.
    unfold baseProfile, maj, minr. rewrite parity_even.
    now destruct (Nat.even i). }
  split; [apply zeros_length|]. split; [exact Hb|].
  split.
  { unfold logits, model_fn. cbn [map nth]. unfold vadd, vecmat, b.
    now rewrite zipWith_length, length_map, length_seq, zeros_length. }
  split; [now apply logits_entry|].
  rewrite logits_entry, Hb, W_col by assumption. lra.
Qed.

Lemma analytic_build_columns_witness :
  (3 < 24)%nat /\
  col 3 W = rotatedProfile 3 /\
  nth 3 (logits [0; 0; 0; 1; 0; 0; 0; 0; 0; 0; 0; 0]) 0
  = dot [0; 0; 0; 1; 0; 0; 0; 0; 0; 0; 0; 0] (rotatedProfile 3).
Proof.
  split; [lia|].
  destruct (analytic_build_columns 3 [0; 0; 0; 1; 0; 0; 0; 0; 0; 0; 0; 0]
              ltac:(lia)) as (_ & Hc & _ & _ & _ & _ & _ & Hl).
  split; [exact Hc | exact Hl].
Defined.

(* ================================================================= *)
(** ** Norms and correlations *)

Lemma vsum_Permutation u v : Permutation u v -> vsum u = vsum v.
Proof.
  induction 1; simpl; lra.
Qed.

Lemma zipWith_diag {A C} (f : A -> A -> C) v :
  zipWith f v v = map (fun x => f x x) v.
Proof. induction v as [|a v IH]; simpl; congruence. Qed.

Lemma dot_Permutation u v : Permutation u v -> dot u u = dot v v.
Proof.
  intros Hp. unfold dot. rewrite !zipWith_diag.
  apply vsum_Permutation. now apply Permutation_map.
Qed.

Lemma dot_self_nonneg v : 0 <= dot v v.
Proof.
  unfold dot. induction v as [|a v IH]; simpl; [lra|]. nra.
Qed.

Lemma dot_vdiv u v c d :
  c <> 0 -> d <> 0 -> dot (vdiv u c) (vdiv v d) = dot u v / (c * d).
Proof.
  intros Hc Hd. unfold dot, vdiv.
  revert v; induction u as [|a u IH]; intros [|e v]; simpl;
    try (unfold Rdiv; ring).
  rewrite IH. field. split; assumption.
Qed.

Lemma norm_sqr v : norm v * norm v = dot v v.
Proof. unfold norm. apply sqrt_sqrt, dot_self_nonneg. Qed.

Lemma norm_rot v r : norm (rot v r) = norm v.
Proof.
  unfold norm. f_equal. apply dot_Permutation, rot_Permutation.
Qed.

Lemma normalized_unit v : 0 < norm v -> dot (vdiv v (norm v)) (vdiv v (norm v)) = 1.
Proof.
  intros Hn. rewrite dot_vdiv by lra. rewrite norm_sqr.
  rewrite <- norm_sqr. field. lra.
Qed.

Lemma baseProfile_unit i : dot (baseProfile i) (baseProfile i) = 1.
Proof.
  unfold baseProfile, maj, minr.
  destruct (i mod 2 =? 0)%nat; apply normalized_unit.
  - pose proof norm_maj_bounds; lra.
  - pose proof norm_min_bounds; lra.
Qed.

(** C8. The squares of the 12 entries of [rotatedProfile keyClass] sum to
    1: each base profile has unit L2 norm by construction and the rotation
    leaves the sum of squares (hence the norm) unchanged. *)
Theorem rotatedProfile_unit_norm (keyClass : nat) (Hk : (keyClass < 24)%nat) :
  length (rotatedProfile keyClass) = 12%nat /\
  dot (rotatedProfile keyClass) (rotatedProfile keyClass) = 1 /\
  dot (baseProfile keyClass) (baseProfile keyClass) = 1 /\
  (forall (v : vec) (r : Z), dot (rot v r) (rot v r) = dot v v) /\
  (forall (v : vec) (r : Z), norm (rot v r) = norm v).
Proof.
  split; [apply rotatedProfile_length|].
  split; [|split; [apply baseProfile_unit|split]].
  - unfold rotatedProfile.
    rewrite (dot_Permutation _ _ (rot_Permutation _ _)).
    apply baseProfile_unit.
  - intros v r. apply dot_Permutation, rot_Permutation.
  - apply norm_rot.
Qed.

Lemma rotatedProfile_unit_norm_witness :
  (5 < 24)%nat /\ dot (rotatedProfile 5) (rotatedProfile 5) = 1.
Proof.
  split; [lia|].
  exact (proj1 (proj2 (rotatedProfile_unit_norm 5 ltac:(lia)))).
Defined.

Lemma all_pairs_below_true : all_pairs_below = true.
Proof. vm_compute. reflexivity. Qed.

Lemma strictly_below_spec i j :
  (i < 24)%nat -> (j < 24)%nat -> i <> j -> strictly_below i j = true.
Proof.
  intros Hi Hj Hij.
  pose proof all_pairs_below_true as H. unfold all_pairs_below in H.
  rewrite forallb_forall in H.
  specialize (H i ltac:(apply in_seq; lia)).
  rewrite forallb_forall in H.
  specialize (H j ltac:(apply in_seq; lia)).
  apply orb_true_iff in H. destruct H as [H|H]; [|exact H].
  apply Nat.eqb_eq in H. contradiction.
Qed.

Lemma maj_lit_centi : maj_lit = map centi maj_centi.
Proof. unfold maj_lit, maj_centi, centi; simpl; repeat f_equal; lra. Qed.

Lemma min_lit_centi : min_lit = map centi min_centi.
Proof. unfold min_lit, min_centi, centi; simpl; repeat f_equal; lra. Qed.

Lemma dot_centi u v : dot (map centi u) (map centi v) = IZR (dotZ u v) / 10000.
Proof.
  unfold dot. revert v; induction u as [|a u IH]; intros [|c v]; simpl;
    try lra.
  rewrite IH, plus_IZR, mult_IZR. unfold centi. lra.
Qed.

Lemma baseProfile_centi i :
  baseProfile i = vdiv (map centi (base_centi i)) (base_norm i).
Proof.
  unfold baseProfile, base_norm, base_centi, maj, minr.
  destruct (i mod 2 =? 0)%nat; cbv iota.
  - now rewrite <- maj_lit_centi.
  - now rewrite <- min_lit_centi.
Qed.

Lemma rotatedProfile_centi i :
  rotatedProfile i = vdiv (map centi (profile_centi i)) (base_norm i).
Proof.
  unfold rotatedProfile, profile_centi. rewrite baseProfile_centi.
  unfold vdiv. now rewrite !rot_map.
Qed.

Lemma base_norm_pos i : 0 < base_norm i.
Proof.
  unfold base_norm, base_centi.
  destruct (i mod 2 =? 0)%nat; cbv iota.
  - rewrite <- maj_lit_centi. pose proof norm_maj_bounds; lra.
  - rewrite <- min_lit_centi. pose proof norm_min_bounds; lra.
Qed.

Lemma below_sqrt_product q d a c :
  0 < q -> 0 < a -> 0 < c -> d * d < q * q * (a * c) ->
  d < q * (sqrt a * sqrt c).
Proof.
  intros Hq Ha Hc Hd. rewrite <- sqrt_mult by lra.
  rewrite <- (sqrt_square q) at 1 by lra.
  rewrite <- sqrt_mult by nra.
  destruct (Rle_lt_dec d 0) as [Hneg|Hpos].
  - assert (0 < sqrt (q * q * (a * c))) by (apply sqrt_lt_R0; nra). lra.
  - rewrite <- (sqrt_square d) by lra. apply sqrt_lt_1; nra.
Qed.

Lemma cross_correlation_below i j :
  (i < 24)%nat -> (j < 24)%nat -> i <> j ->
  dot (rotatedProfile i) (rotatedProfile j) < 0.97.
Proof.
  intros Hi Hj Hij.
  pose proof (strictly_below_spec i j Hi Hj Hij) as Hb.
  unfold strictly_below in Hb. apply Z.ltb_lt in Hb.
  replace ((dotZ (profile_centi i) (profile_centi j)) ^ 2)%Z
    with (dotZ (profile_centi i) (profile_centi j)
          * dotZ (profile_centi i) (profile_centi j))%Z in Hb by ring.
  apply IZR_lt in Hb. rewrite !mult_IZR in Hb.
  pose proof (base_norm_pos i) as Hni. pose proof (base_norm_pos j) as Hnj.
  rewrite !rotatedProfile_centi, dot_vdiv, dot_centi by lra.
  set (D := IZR (dotZ (profile_centi i) (profile_centi j))) in *.
  assert (Hlt : D / 10000 < 0.97 * (base_norm i * base_norm j)).
  { unfold base_norm, norm. rewrite !dot_centi.
    set (a := IZR (dotZ (base_centi i) (base_centi i))) in *.
    set (c := IZR (dotZ (base_centi j) (base_centi j))) in *.
    assert (Ha : 0 < a / 10000).
    { pose proof (norm_sqr (map centi (base_centi i))) as Hs.
      rewrite dot_centi in Hs. fold (base_norm i) in Hs. fold a in Hs.
      nra. }
    assert (Hc : 0 < c / 10000).
    { pose proof (norm_sqr (map centi (base_centi j))) as Hs.
      rewrite dot_centi in Hs. fold (base_norm j) in Hs. fold c in Hs.
      nra. }
    apply below_sqrt_product; try assumption; lra. }
  apply (Rmult_lt_reg_r (base_norm i * base_norm j)); [nra|].
  replace (D / 10000 / (base_norm i * base_norm j)
           * (base_norm i * base_norm j))
    with (D / 10000) by (field; lra).
  exact Hlt.
Qed.

(** C2. Fed the noise-free chroma vector [rotatedProfile i], the analytic
    classifier scores class [i] strictly above every other class: the
    self-correlation of the template (which is 1) strictly exceeds its
    correlation with each of the 23 other templates (which is below 0.97),
    so the maximum logit is at [i] and is unique. *)
Theorem noise_free_argmax (i j : nat)
  (Hi : (i < 24)%nat) (Hj : (j < 24)%nat) (Hij : j <> i) :
  dot (rotatedProfile i) (rotatedProfile j)
  < dot (rotatedProfile i) (rotatedProfile i) /\
  nth j (logits (rotatedProfile i)) 0 < nth i (logits (rotatedProfile i)) 0 /\
  nth i (logits (rotatedProfile i)) 0 = 1 /\
  nth j (logits (rotatedProfile i)) 0 < 0.97.
Proof.
  assert (Hself : dot (rotatedProfile i) (rotatedProfile i) = 1).
  { unfold rotatedProfile.
    rewrite (dot_Permutation _ _ (rot_Permutation _ _)).
    apply baseProfile_unit. }
  assert (Hcross : dot (rotatedProfile i) (rotatedProfile j) < 0.97)
    by (apply cross_correlation_below; auto).
  assert (Hb : forall k, nth k b 0 = 0)
    by (intros k; unfold b, zeros; apply nth_repeat).
  split; [lra|].
  rewrite !logits_entry, !Hb, !W_col by assumption.
  repeat split; lra.
Qed.

Lemma noise_free_argmax_witness :
  (4 < 24)%nat /\ (11 < 24)%nat /\ 11%nat <> 4%nat /\
  nth 11 (logits (rotatedProfile 4)) 0 < nth 4 (logits (rotatedProfile 4)) 0.
Proof.
  split; [lia|]. split; [lia|]. split; [lia|].
  exact (proj1 (proj2 (noise_free_argmax 4 11 ltac:(lia) ltac:(lia)
                         ltac:(lia)))).
Defined.

(* ================================================================= *)
(** ** Reasoning about computations over the random sources *)

Lemma post_ret {A} (a : A) (P : A -> Prop) : P a -> post (ret a) P.
Proof. intros H g. exact H. Qed.

Lemma post_bind {A B} (m : M A) (k : A -> M B) (P : A -> Prop)
  (Q : B -> Prop) :
  post m P -> (forall a, P a -> post (k a) Q) -> post (bind m k) Q.
Proof.
  intros Hm Hk g. unfold bind.
  specialize (Hm g). destruct (m g) as [a g']. simpl in Hm.
  exact (Hk a Hm g').
Qed.

Lemma post_weaken {A} (m : M A) (P Q : A -> Prop) :
  post m P -> (forall a, P a -> Q a) -> post m Q.
Proof. intros Hm HPQ g. apply HPQ, Hm. Qed.

Lemma post_true {A} (m : M A) : post m (fun _ => True).
Proof. intros g. exact I. Qed.

(** One step of a computation: [step lem] uses [lem] for the first action
    and leaves its continuation; [skip_draw x] passes a draw whose value
    does not matter. *)
Ltac step lem := eapply post_bind; [apply lem|].
Ltac skip_draw x := eapply post_bind; [apply post_true|]; intros x _.

Lemma unit_double_range x : 0 <= unit_double x < 1.
Proof.
  unfold unit_double, two53.
  pose proof (Z.mod_pos_bound (Z.of_N x) 9007199254740992 ltac:(lia))
    as [Hlo Hhi].
  apply IZR_le in Hlo. apply IZR_lt in Hhi.
  set (m := IZR (Z.of_N x mod 9007199254740992)) in *.
  assert (H53 : 0 < IZR 9007199254740992) by (apply IZR_lt; lia).
  split.
  - apply Rmult_le_reg_r with (IZR 9007199254740992); [assumption|].
    unfold Rdiv. rewrite Rmult_assoc, Rinv_l by lra. lra.
  - apply Rmult_lt_reg_r with (IZR 9007199254740992); [assumption|].
    unfold Rdiv. rewrite Rmult_assoc, Rinv_l by lra. lra.
Qed.

Lemma random_random_range : post random_random (fun x => 0 <= x < 1).
Proof.
  unfold random_random. skip_draw x. apply post_ret, unit_double_range.
Qed.

Lemma random_uniform_range a c :
  a <= c -> post (random_uniform a c) (fun x => a <= x <= c).
Proof.
  intros Hac. unfold random_uniform.
  step random_random_range.
  intros x Hx. apply post_ret. nra.
Qed.

Lemma randbelow_range n : (0 < n)%nat -> post (randbelow n) (fun k => (k < n)%nat).
Proof.
  intros Hn. unfold randbelow. skip_draw x. apply post_ret.
  pose proof (N.mod_upper_bound x (N.of_nat n) ltac:(lia)). lia.
Qed.

Lemma random_randint_range a c :
  (a <= c)%nat -> post (random_randint a c) (fun k => (a <= k <= c)%nat).
Proof.
  intros Hac. unfold random_randint.
  eapply post_bind; [apply (randbelow_range (c - a + 1)); lia|].
  intros k Hk. apply post_ret. simpl in Hk. lia.
Qed.

Lemma random_choice_In {A} (d : A) (l : list A) :
  l <> [] -> post (random_choice d l) (fun x => In x l).
Proof.
  intros Hl. unfold random_choice.
  eapply post_bind;
    [apply (randbelow_range (length l)); destruct l; simpl; [congruence|lia]|].
  intros k Hk. apply post_ret. now apply nth_In.
Qed.

Lemma np_random_rand_range n :
  post (np_random_rand n) (fun v => length v = n /\ between 0 1 v).
Proof.
  induction n as [|n IH]; simpl.
  - apply post_ret. split; [reflexivity|constructor].
  - skip_draw x.
    step IH. intros v [Hl Hb].
    apply post_ret. split; [simpl; congruence|].
    constructor; [|exact Hb]. pose proof (unit_double_range x). lra.
Qed.

(* ================================================================= *)
(** ** Bounds on the synthetic mixture *)

Lemma between_weaken lo hi lo' hi' v :
  lo' <= lo -> hi <= hi' -> between lo hi v -> between lo' hi' v.
Proof.
  intros Hlo Hhi Hv. eapply Forall_impl; [|exact Hv].
  simpl. intros x Hx. lra.
Qed.

Lemma between_Permutation lo hi u v :
  Permutation u v -> between lo hi u -> between lo hi v.
Proof. intros Hp Hu. eapply Permutation_Forall; eauto. Qed.

Lemma vadd_length u v : length (vadd u v) = Nat.min (length u) (length v).
Proof. apply zipWith_length. Qed.

Lemma vadd_between l1 h1 l2 h2 u v :
  between l1 h1 u -> between l2 h2 v -> between (l1 + l2) (h1 + h2) (vadd u v).
Proof.
  intros Hu. revert v. induction Hu as [|a u Ha _ IH]; intros v Hv.
  - constructor.
  - destruct Hv as [|c v Hc Hv]; simpl; constructor.
    + lra.
    + now apply IH.
Qed.

Lemma vscale_between c lo hi v :
  0 <= c -> between lo hi v -> between (c * lo) (c * hi) (vscale c v).
Proof.
  intros Hc Hv. unfold vscale. apply Forall_map.
  eapply Forall_impl; [|exact Hv]. simpl. intros x Hx. nra.
Qed.

Lemma vscale_length c v : length (vscale c v) = length v.
Proof. apply length_map. Qed.

Lemma add_at_length v i x : length (add_at v i x) = length v.
Proof.
  revert i; induction v as [|a v IH]; intros [|i]; simpl; auto.
Qed.

Lemma add_at_between lo hi v i x :
  0 <= x -> between lo hi v -> between lo (hi + x) (add_at v i x).
Proof.
  intros Hx Hv. revert i.
  induction Hv as [|a v Ha Hv IH]; intros [|i]; simpl;
    try (constructor; fail).
  - constructor; [lra|]. apply between_weaken with lo hi; auto; lra.
  - constructor; [lra|]. apply IH.
Qed.

Lemma zeros_between n : between 0 0 (zeros n).
Proof.
  unfold zeros. induction n; simpl; constructor; auto; lra.
Qed.

Lemma roll_Permutation {A} (a : list A) (s : Z) : Permutation (roll a s) a.
Proof.
  unfold roll. destruct (length a); [reflexivity|].
  rewrite Permutation_app_comm, firstn_skipn. reflexivity.
Qed.

Lemma roll_length {A} (a : list A) (s : Z) : length (roll a s) = length a.
Proof. apply Permutation_length, roll_Permutation. Qed.

Lemma quotient_between lo hi a n :
  0 < n -> lo * n <= a <= hi * n -> lo <= a / n <= hi.
Proof.
  intros Hn [H1 H2]. split.
  - apply Rmult_le_reg_r with n; [assumption|].
    unfold Rdiv. rewrite Rmult_assoc, Rinv_l by lra. lra.
  - apply Rmult_le_reg_r with n; [assumption|].
    unfold Rdiv. rewrite Rmult_assoc, Rinv_l by lra. lra.
Qed.

Lemma maj_t_between : between 0.17 0.5 maj_t.
Proof.
  pose proof norm_maj_bounds as [Hlo Hhi].
  unfold maj_t. set (n := norm maj_lit) in *.
  unfold vdiv, maj_lit, between. cbn [map].
  repeat (apply Forall_cons; [apply quotient_between; lra|]).
  apply Forall_nil.
Qed.

Lemma min_t_between : between 0.17 0.5 min_t.
Proof.
  pose proof norm_min_bounds as [Hlo Hhi].
  unfold min_t. set (n := norm min_lit) in *.
  unfold vdiv, min_lit, between. cbn [map].
  repeat (apply Forall_cons; [apply quotient_between; lra|]).
  apply Forall_nil.
Qed.

Lemma triad_vec_shape root tri :
  length (triad_vec root tri) = 12%nat /\
  between 0 (INR (length tri)) (triad_vec root tri).
Proof.
  unfold triad_vec.
  assert (H : forall v h, length v = 12%nat -> between 0 h v ->
            let w := fold_left (fun v s => add_at v ((root + s) mod 12)%nat 1)
                               tri v in
            length w = 12%nat /\ between 0 (h + INR (length tri)) w).
  { induction tri as [|s tri IH]; intros v h Hl Hb; cbn [fold_left length].
    - split; [exact Hl|]. simpl. now rewrite Rplus_0_r.
    - rewrite S_INR.
      destruct (IH (add_at v ((root + s) mod 12)%nat 1) (h + 1)) as [H1 H2].
      + now rewrite add_at_length.
      + apply add_at_between; [lra|exact Hb].
      + split; [exact H1|].
        replace (h + (INR (length tri) + 1)) with (h + 1 + INR (length tri))
          by lra.
        exact H2. }
  destruct (H (zeros 12) 0 (zeros_length 12) (zeros_between 12)) as [H1 H2].
  split; [exact H1|]. now rewrite Rplus_0_l in H2.
Qed.

Lemma degrees_triads (is_maj : bool) (tri : list nat) :
  In tri (if is_maj then maj_degrees else min_degrees) -> length tri = 3%nat.
Proof.
  destruct is_maj; simpl; intros H;
    repeat (destruct H as [<-|H]; [reflexivity|]); contradiction.
Qed.

Lemma chord_vec_shape root is_maj :
  post (chord_vec root is_maj)
       (fun v => length v = 12%nat /\ between 0 4.1 v).
Proof.
  unfold chord_vec.
  eapply post_bind.
  { apply random_choice_In. destruct is_maj; discriminate. }
  intros tri Htri. apply degrees_triads in Htri.
  destruct (triad_vec_shape root tri) as [Hl Hb].
  rewrite Htri in Hb. simpl in Hb.
  skip_draw x.
  skip_draw y.
  apply post_ret.
  assert (Hb3 : between 0 3 (triad_vec root tri))
    by (eapply between_weaken; [| |exact Hb]; lra).
  destruct (Rltb x 0.35), (Rltb y 0.25); rewrite ?add_at_length;
    (split; [exact Hl|]).
  - apply between_weaken with 0 (3 + 0.7 + 0.4); try lra.
    apply add_at_between; [lra|]. apply add_at_between; [lra|exact Hb3].
  - apply between_weaken with 0 (3 + 0.7); try lra.
    apply add_at_between; [lra|exact Hb3].
  - apply between_weaken with 0 (3 + 0.4); try lra.
    apply add_at_between; [lra|exact Hb3].
  - apply between_weaken with 0 3; try lra. exact Hb3.
Qed.

Lemma mix_chords_shape n r is_maj mix lo hi :
  length mix = 12%nat -> between lo hi mix ->
  post (mix_chords n r is_maj mix)
       (fun v => length v = 12%nat /\ between lo (hi + 2.87 * INR n) v).
Proof.
  revert mix hi. induction n as [|n IH]; intros mix hi Hl Hb.
  - simpl. apply post_ret. split; [exact Hl|].
    apply between_weaken with lo hi; auto; lra.
  - cbn [mix_chords]. step chord_vec_shape.
    intros c [Hcl Hcb]. rewrite S_INR.
    eapply post_weaken.
    + apply (IH _ (hi + 2.87)).
      * rewrite vadd_length, vscale_length, Hl, Hcl. reflexivity.
      * apply between_weaken with (lo + 0.7 * 0) (hi + 0.7 * 4.1); try lra.
        apply vadd_between; [exact Hb|]. apply vscale_between; [lra|exact Hcb].
    + intros v [Hvl Hvb]. split; [exact Hvl|].
      apply between_weaken with lo (hi + 2.87 + 2.87 * INR n); auto; lra.
Qed.

Lemma train_base_shape cls :
  let base := rot (if (cls mod 2 =? 0)%nat then maj_t else min_t)
                  (Z.of_nat (cls / 2)) in
  length base = 12%nat /\ between 0.17 0.5 base.
Proof.
  cbv zeta. split.
  - rewrite rot_length. destruct (cls mod 2 =? 0)%nat;
      [apply maj_length | apply minr_length].
  - eapply between_Permutation;
      [apply Permutation_sym, rot_Permutation|].
    destruct (cls mod 2 =? 0)%nat;
      [apply maj_t_between | apply min_t_between].
Qed.

(** Every entry of the mixture lies in [[0.1, 10]] before clipping. *)
Lemma synth_mix_shape cls :
  post (synth_mix cls) (fun mix => length mix = 12%nat /\ between 0.1 10 mix).
Proof.
  unfold synth_mix.
  destruct (train_base_shape cls) as [Hbl Hbb]. cbv zeta in Hbl, Hbb.
  set (base := rot _ _) in *.
  eapply post_bind; [apply (random_uniform_range 0.8 1.2); lra|].
  intros u Hu.
  eapply post_bind; [apply (random_randint_range 1 3); lia|].
  intros n Hn. cbv beta in Hn.
  assert (Hm0 : between 0.136 0.6 (vmuls base u)).
  { unfold vmuls. apply Forall_map. eapply Forall_impl; [|exact Hbb].
    simpl. intros x Hx. nra. }
  eapply post_bind.
  { apply (mix_chords_shape n _ _ (vmuls base u) 0.136 0.6);
      [unfold vmuls; now rewrite length_map | exact Hm0]. }
  intros mix [Hml Hmb].
  skip_draw k.
  step (np_random_rand_range 12).
  intros noise [Hnl Hnb].
  apply post_ret. split.
  - rewrite !vadd_length, !vscale_length, roll_length, Hml, Hbl, Hnl.
    reflexivity.
  - assert (Hn3 : INR n <= 3).
    { replace 3 with (INR 3) by (simpl; lra). apply le_INR. lia. }
    apply between_weaken
      with (0.136 + 0.15 * 0.17 + 0.05 * 0)
           (0.6 + 2.87 * INR n + 0.15 * 0.5 + 0.05 * 1); try lra.
    apply vadd_between; [apply vadd_between; [exact Hmb|]|].
    + apply vscale_between; [lra|].
      eapply between_Permutation;
        [apply Permutation_sym, roll_Permutation | exact Hbb].
    + apply vscale_between; [lra|exact Hnb].
Qed.

(* ================================================================= *)
(** ** Clipping and renormalisation *)

Lemma clip_min_length v lo : length (clip_min v lo) = length v.
Proof. apply length_map. Qed.

Lemma clip_min_floor v lo : Forall (fun x => lo <= x) (clip_min v lo).
Proof.
  unfold clip_min. apply Forall_map, Forall_forall.
  intros x _. apply Rmax_l.
Qed.

Lemma clip_min_between lo hi f v :
  f <= lo -> between lo hi v -> clip_min v f = v.
Proof.
  intros Hf Hv. unfold clip_min.
  induction Hv as [|a v Ha _ IH]; simpl; [reflexivity|].
  rewrite IH. f_equal. apply Rmax_right. lra.
Qed.

Lemma vsum_lower lo v :
  Forall (fun x => lo <= x) v -> INR (length v) * lo <= vsum v.
Proof.
  induction 1 as [|a v Ha _ IH]; [simpl; lra|].
  cbn [length vsum]. rewrite S_INR. lra.
Qed.

Lemma vsum_upper hi v :
  Forall (fun x => x <= hi) v -> vsum v <= INR (length v) * hi.
Proof.
  induction 1 as [|a v Ha _ IH]; [simpl; lra|].
  cbn [length vsum]. rewrite S_INR. lra.
Qed.

Lemma vsum_vdiv v s : vsum (vdiv v s) = vsum v / s.
Proof.
  unfold vdiv. induction v as [|a v IH]; simpl; [unfold Rdiv; ring|].
  rewrite IH. unfold Rdiv. ring.
Qed.

Lemma INR_12 : INR 12 = 12.
Proof. simpl. lra. Qed.

Lemma synth_sample_unfold cls g :
  fst (synth_sample cls g) = renormalize (fst (synth_mix cls g)).
Proof.
  unfold synth_sample, bind, ret. now destruct (synth_mix cls g).
Qed.

(** C10. The renormalisation never divides by zero: after clipping, each
    of the 12 entries is at least 1e-6, their sum is at least 12e-6 and
    thus positive (and at most 120), and every entry of the returned
    vector is strictly positive and at most 1. *)
Theorem renormalize_well_defined (cls : nat) (g : rng)
  (Hcls : (cls < 24)%nat) :
  let clipped := clip_min (fst (synth_mix cls g)) floor_const in
  length clipped = 12%nat /\
  Forall (fun x => 1e-6 <= x) clipped /\
  12e-6 <= vsum clipped /\ 0 < vsum clipped /\ vsum clipped <= 120 /\
  fst (synth_sample cls g) = vdiv clipped (vsum clipped) /\
  Forall (fun x => 0 < x <= 1) (fst (synth_sample cls g)).
Proof.
  intros clipped.
  destruct (synth_mix_shape cls g) as [Hl Hb].
  assert (Hcl : length clipped = 12%nat)
    by (unfold clipped; now rewrite clip_min_length).
  assert (Hfl : Forall (fun x => 1e-6 <= x) clipped)
    by (apply clip_min_floor).
  assert (Hlow : 12e-6 <= vsum clipped).
  { pose proof (vsum_lower _ _ Hfl) as H. rewrite Hcl, INR_12 in H. lra. }
  assert (Hid : clipped = fst (synth_mix cls g)).
  { unfold clipped. apply clip_min_between with 0.1 10; [|exact Hb].
    unfold floor_const. lra. }
  assert (Hup : vsum clipped <= 120).
  { assert (Hhi : Forall (fun x => x <= 10) clipped).
    { rewrite Hid. eapply Forall_impl; [|exact Hb]. simpl. intros; lra. }
    pose proof (vsum_upper _ _ Hhi) as H. rewrite Hcl, INR_12 in H. lra. }
  assert (Hs : fst (synth_sample cls g) = vdiv clipped (vsum clipped))
    by (rewrite synth_sample_unfold; reflexivity).
  repeat (split; [first [assumption | lra]|]).
  rewrite Hs. unfold vdiv. apply Forall_map.
  assert (Hpos : 0 < vsum clipped) by lra.
  assert (Hle : Forall (fun x => 0 < x /\ x <= vsum clipped) clipped).
  { clear Hs Hup Hlow Hcl Hid. revert Hpos.
    induction Hfl as [|a v Ha Hv IH]; [constructor|].
    cbn [vsum]. intros Hpos.
    assert (Hv0 : 0 <= vsum v).
    { pose proof (vsum_lower _ _ Hv) as H.
      pose proof (pos_INR (length v)). nra. }
    constructor; [lra|].
    destruct v as [|c v]; [constructor|].
    assert (Hvp : 0 < vsum (c :: v)).
    { pose proof (vsum_lower _ _ Hv) as H. cbn [length] in H.
      rewrite S_INR in H. pose proof (pos_INR (length v)). nra. }
    eapply Forall_impl; [|apply IH; exact Hvp].
    simpl. intros x Hx. lra. }
  eapply Forall_impl; [|exact Hle].
  simpl. intros x [Hx0 Hx1]. split.
  - apply Rdiv_lt_0_compat; assumption.
  - apply Rmult_le_reg_r with (vsum clipped); [assumption|].
    unfold Rdiv. rewrite Rmult_assoc, Rinv_l by lra. lra.
Qed.

Lemma renormalize_well_defined_witness :
  (7 < 24)%nat /\
  0 < vsum (clip_min (fst (synth_mix 7 demo_rng)) floor_const) /\
  Forall (fun x => 0 < x <= 1) (fst (synth_sample 7 demo_rng)).
Proof.
  split; [lia|].
  destruct (renormalize_well_defined 7 demo_rng ltac:(lia))
    as (_ & _ & _ & Hp & _ & _ & Hs).
  split; [exact Hp | exact Hs].
Defined.

(** C5. Every synthetic sample has 12 entries, each at least the floor
    constant 1e-6, and the entries sum to 1. *)
Theorem synth_sample_invariant (cls : nat) (g : rng)
  (Hcls : (cls < 24)%nat) :
  length (fst (synth_sample cls g)) = 12%nat /\
  Forall (fun x => floor_const <= x) (fst (synth_sample cls g)) /\
  vsum (fst (synth_sample cls g)) = 1.
Proof.
  destruct (synth_mix_shape cls g) as [Hl Hb].
  rewrite synth_sample_unfold. unfold renormalize.
  rewrite (clip_min_between 0.1 10) by (unfold floor_const; lra || exact Hb).
  set (mix := fst (synth_mix cls g)) in *.
  assert (Hlo : 1.2 <= vsum mix).
  { assert (H : Forall (fun x => 0.1 <= x) mix)
      by (eapply Forall_impl; [|exact Hb]; simpl; intros; lra).
    apply vsum_lower in H. rewrite Hl, INR_12 in H. lra. }
  assert (Hhi : vsum mix <= 120).
  { assert (H : Forall (fun x => x <= 10) mix)
      by (eapply Forall_impl; [|exact Hb]; simpl; intros; lra).
    apply vsum_upper in H. rewrite Hl, INR_12 in H. lra. }
  split; [now rewrite vdiv_length|]. split.
  - unfold vdiv. apply Forall_map. eapply Forall_impl; [|exact Hb].
    simpl. intros x Hx. unfold floor_const.
    apply Rmult_le_reg_r with (vsum mix); [lra|].
    replace (x / vsum mix * vsum mix) with x by (field; lra). nra.
  - rewrite vsum_vdiv. field. lra.
Qed.

Lemma synth_sample_invariant_witness :
  (7 < 24)%nat /\
  Forall (fun x => floor_const <= x) (fst (synth_sample 7 demo_rng)) /\
  vsum (fst (synth_sample 7 demo_rng)) = 1.
Proof.
  split; [lia|].
  exact (proj2 (synth_sample_invariant 7 demo_rng ltac:(lia))).
Defined.

(* ================================================================= *)
(** ** The dataset *)

Lemma class_loop_counts n c acc :
  post (class_loop n c acc)
       (fun r => length (fst r) = (length (fst acc) + n)%nat /\
                 snd r = snd acc ++ repeat c n).
Proof.
  revert acc. induction n as [|n IH]; intros acc; cbn [class_loop].
  - apply post_ret. split; [lia|]. simpl. now rewrite app_nil_r.
  - skip_draw x.
    eapply post_weaken; [apply IH|].
    cbn [fst snd]. intros r [H1 H2]. split.
    + rewrite H1, length_app. simpl. lia.
    + rewrite H2, <- app_assoc. reflexivity.
Qed.

Lemma classes_loop_counts cs n acc :
  post (classes_loop cs n acc)
       (fun r => length (fst r) = (length (fst acc) + n * length cs)%nat /\
                 length (snd r) = (length (snd acc) + n * length cs)%nat /\
                 snd r = snd acc ++ concat (map (fun c => repeat c n) cs)).
Proof.
  revert acc. induction cs as [|c cs IH]; intros acc; cbn [classes_loop].
  - apply post_ret. split; [simpl; lia|]. split; [simpl; lia|].
    simpl. now rewrite app_nil_r.
  - step class_loop_counts. intros acc' [H1 H2].
    eapply post_weaken; [apply IH|].
    cbn beta. intros r (H3 & H4 & H5). split; [|split].
    + rewrite H3, H1. cbn [length]. lia.
    + rewrite H4, H2, length_app, repeat_length. cbn [length]. lia.
    + rewrite H5, H2, <- app_assoc. reflexivity.
Qed.

Lemma count_occ_blocks n cs c :
  count_occ Nat.eq_dec (concat (map (fun c => repeat c n) cs)) c
  = (n * count_occ Nat.eq_dec cs c)%nat.
Proof.
  induction cs as [|a cs IH]; cbn [map concat]; [simpl; lia|].
  rewrite count_occ_app, IH. cbn [count_occ].
  destruct (Nat.eq_dec a c) as [->|Hne].
  - rewrite count_occ_repeat_eq by reflexivity. lia.
  - rewrite count_occ_repeat_neq by congruence. lia.
Qed.

Lemma gen_samples_counts n :
  post (gen_samples n)
       (fun r => length (fst r) = (24 * n)%nat /\
                 length (snd r) = (24 * n)%nat /\
                 forall c, (c < 24)%nat -> count_occ Nat.eq_dec (snd r) c = n).
Proof.
  unfold gen_samples. eapply post_weaken; [apply classes_loop_counts|].
  cbn [fst snd length app]. intros r (H1 & H2 & H3).
  rewrite length_seq in H1, H2.
  split; [lia|]. split; [lia|].
  intros c Hc. rewrite H3, count_occ_blocks.
  assert (H : count_occ Nat.eq_dec (seq 0 24) c = 1%nat).
  { apply NoDup_count_occ'; [apply seq_NoDup | apply in_seq; lia]. }
  rewrite H. lia.
Qed.

Lemma np_interval_range hi : post (np_interval hi) (fun j => (j <= hi)%nat).
Proof.
  unfold np_interval. skip_draw x. apply post_ret.
  pose proof (N.mod_upper_bound x (N.of_nat (hi + 1)) ltac:(lia)). lia.
Qed.

Lemma shuffle_from_Permutation i x :
  (i < length x)%nat \/ i = O ->
  post (shuffle_from i x) (fun y => Permutation y x).
Proof.
  revert x. induction i as [|i IH]; intros x Hi; cbn [shuffle_from].
  - apply post_ret. reflexivity.
  - destruct Hi as [Hi|Hi]; [|discriminate].
    step np_interval_range. intros j Hj.
    cbv beta in Hj.
    assert (Hsw : Permutation (swap O (S i) j x) x)
      by (apply swap_Permutation; lia).
    eapply post_weaken.
    + apply IH. left. rewrite (Permutation_length Hsw). lia.
    + cbn beta. intros y Hy. now rewrite Hy.
Qed.

Lemma np_random_shuffle_Permutation x :
  post (np_random_shuffle x) (fun y => Permutation y x).
Proof.
  unfold np_random_shuffle. apply shuffle_from_Permutation.
  destruct x; simpl; lia.
Qed.

Lemma take_idx_all {A} (d : A) (xs : list A) :
  take_idx d xs (seq 0 (length xs)) = xs.
Proof.
  unfold take_idx. apply nth_ext with (d := d) (d' := d).
  - now rewrite length_map, length_seq.
  - intros n Hn. rewrite length_map, length_seq in Hn.
    now rewrite nth_map_seq.
Qed.

Lemma take_idx_Permutation {A} (d : A) (xs : list A) idx :
  Permutation idx (seq 0 (length xs)) -> Permutation (take_idx d xs idx) xs.
Proof.
  intros Hp. rewrite <- (take_idx_all d xs) at 2.
  unfold take_idx. now apply Permutation_map.
Qed.

Lemma take_idx_combine {A B} (da : A) (db : B) xs ys idx :
  length xs = length ys ->
  combine (take_idx da xs idx) (take_idx db ys idx)
  = take_idx (da, db) (combine xs ys) idx.
Proof.
  intros Hl. unfold take_idx.
  induction idx as [|i idx IH]; simpl; [reflexivity|].
  now rewrite IH, combine_nth.
Qed.

Lemma combine_split_at {A B} n (u : list A) (v : list B) :
  combine (firstn n u) (firstn n v) ++ combine (skipn n u) (skipn n v)
  = combine u v.
Proof.
  revert u v. induction n as [|n IH]; intros [|a u] [|c v]; simpl;
    try reflexivity.
  - now destruct (skipn n u).
  - now rewrite IH.
Qed.

Lemma split_point_floor m : split_point m = (9 * m / 10)%nat.
Proof.
  unfold split_point.
  assert (H : Z.of_nat (9 * m / 10) = Int_part (0.9 * INR m)).
  { apply Int_part_spec.
    rewrite INR_IZR_INZ.
    pose proof (Nat.div_mod_eq (9 * m) 10) as Hd.
    pose proof (Nat.mod_upper_bound (9 * m) 10 ltac:(lia)) as Hr.
    set (q := (9 * m / 10)%nat) in *.
    assert (H1 : (10 * Z.of_nat q <= 9 * Z.of_nat m)%Z) by lia.
    assert (H2 : (9 * Z.of_nat m < 10 * Z.of_nat q + 10)%Z) by lia.
    apply IZR_le in H1. apply IZR_lt in H2.
    repeat rewrite ?plus_IZR, ?mult_IZR in H1.
    repeat rewrite ?plus_IZR, ?mult_IZR in H2. lra. }
  now rewrite <- H, Nat2Z.id.
Qed.

Lemma to_categorical_length ys k : length (to_categorical ys k) = length ys.
Proof. apply length_map. Qed.

(** C6. For [N] samples per class the builder generates [24 * N] samples,
    [N] with each label; the training part has [floor(0.9 * 24 * N)]
    of them and the validation part the rest; the two parts take disjoint
    sets of positions of one shuffled index list, and together they are a
    permutation of the generated labelled samples. *)
Theorem make_dataset_split (N : nat) (g : rng) :
  let xs := fst (fst (gen_samples N g)) in
  let ys := snd (fst (gen_samples N g)) in
  let ds := fst (make_dataset N g) in
  let train_x := fst (fst ds) in let train_y := snd (fst ds) in
  let val_x := fst (snd ds) in let val_y := snd (snd ds) in
  let total := (24 * N)%nat in
  let n := (9 * total / 10)%nat in
  length xs = total /\ length ys = total /\
  (forall c, (c < 24)%nat -> count_occ Nat.eq_dec ys c = N) /\
  INR n <= 0.9 * INR total < INR n + 1 /\
  length train_x = n /\ length train_y = n /\
  length val_x = (total - n)%nat /\ length val_y = (total - n)%nat /\
  (exists idx,
     Permutation idx (seq 0 total) /\
     train_x = take_idx [] xs (firstn n idx) /\
     train_y = take_idx [] (to_categorical ys 24) (firstn n idx) /\
     val_x = take_idx [] xs (skipn n idx) /\
     val_y = take_idx [] (to_categorical ys 24) (skipn n idx) /\
     (forall i, In i (firstn n idx) -> ~ In i (skipn n idx))) /\
  Permutation (combine train_x train_y ++ combine val_x val_y)
              (combine xs (to_categorical ys 24)).
Proof.
  intros xs ys ds train_x train_y val_x val_y total n.
  destruct (gen_samples_counts N g) as (Hxl & Hyl & Hcount).
  fold xs in Hxl. fold ys in Hyl, Hcount. fold total in Hxl, Hyl.
  assert (Hds : exists idx,
             Permutation idx (seq 0 total) /\
             ds = ((firstn n (take_idx [] xs idx),
                    firstn n (take_idx [] (to_categorical ys 24) idx)),
                   (skipn n (take_idx [] xs idx),
                    skipn n (take_idx [] (to_categorical ys 24) idx)))).
  { unfold ds, make_dataset, bind. subst xs ys.
    destruct (gen_samples N g) as [[xs ys] g1]. cbn [fst snd] in *.
    unfold shuffle_split, bind, ret.
    pose proof (np_random_shuffle_Permutation (seq 0 (length xs)) g1) as Hp.
    destruct (np_random_shuffle (seq 0 (length xs)) g1) as [idx g2].
    cbn [fst snd] in *. exists idx. rewrite <- Hxl. split; [exact Hp|].
    assert (Hlen : length (take_idx [] xs idx) = total).
    { unfold take_idx.
      now rewrite length_map, (Permutation_length Hp), length_seq. }
    rewrite !Hlen, split_point_floor. reflexivity. }
  destruct Hds as (idx & Hp & Hds).
  assert (Hil : length idx = total)
    by (now rewrite (Permutation_length Hp), length_seq).
  assert (Hn : (n <= total)%nat).
  { unfold n. apply Nat.Div0.div_le_upper_bound. lia. }
  assert (Htx : train_x = firstn n (take_idx [] xs idx))
    by (unfold train_x; now rewrite Hds).
  assert (Hty : train_y = firstn n (take_idx [] (to_categorical ys 24) idx))
    by (unfold train_y; now rewrite Hds).
  assert (Hvx : val_x = skipn n (take_idx [] xs idx))
    by (unfold val_x; now rewrite Hds).
  assert (Hvy : val_y = skipn n (take_idx [] (to_categorical ys 24) idx))
    by (unfold val_y; now rewrite Hds).
  clearbody xs ys ds train_x train_y val_x val_y.
  split; [exact Hxl|]. split; [exact Hyl|]. split; [exact Hcount|].
  split.
  { pose proof (split_point_floor total) as Hsp. fold n in Hsp.
    unfold split_point in Hsp.
    pose proof (base_Int_part (0.9 * INR total)) as [Hb1 Hb2].
    assert (Hz : Int_part (0.9 * INR total) = Z.of_nat n).
    { rewrite <- Hsp. rewrite Z2Nat.id; [reflexivity|].
      assert (Hgt : IZR (-1) < IZR (Int_part (0.9 * INR total)))
        by (pose proof (pos_INR total); lra).
      apply lt_IZR in Hgt. lia. }
    rewrite Hz, <- INR_IZR_INZ in Hb1, Hb2. lra. }
  subst train_x train_y val_x val_y. unfold take_idx.
  rewrite !length_firstn, !length_skipn, !length_map, Hil.
  split; [lia|]. split; [lia|]. split; [lia|]. split; [lia|].
  split.
  - exists idx. split; [exact Hp|].
    rewrite !firstn_map, !skipn_map.
    repeat (split; [reflexivity|]).
    assert (Hnd : NoDup (firstn n idx ++ skipn n idx)).
    { rewrite firstn_skipn.
      apply (Permutation_NoDup (Permutation_sym Hp)), seq_NoDup. }
    intros i Hi1 Hi2. revert Hnd Hi1 Hi2. generalize (skipn n idx).
    induction (firstn n idx) as [|a l IH]; intros l2 Hnd Hi1 Hi2;
      [contradiction|].
    cbn [app] in Hnd. inversion Hnd as [|? ? Hna Hnd']; subst.
    destruct Hi1 as [->|Hi1].
    + apply Hna, in_or_app. now right.
    + exact (IH l2 Hnd' Hi1 Hi2).
  - rewrite combine_split_at.
    fold (take_idx [] xs idx). fold (take_idx [] (to_categorical ys 24) idx).
    rewrite take_idx_combine by (now rewrite to_categorical_length, Hxl, Hyl).
    apply take_idx_Permutation.
    rewrite length_combine, to_categorical_length, Hxl, Hyl, Nat.min_id.
    exact Hp.
Qed.

(* ================================================================= *)
(** ** The colour tones of the synthesizer *)

Lemma Rltb_true x y : x < y -> Rltb x y = true.
Proof.
  intros H. unfold Rltb. destruct (Rlt_dec x y); [reflexivity|contradiction].
Qed.

Lemma unit_double_0 : unit_double 0 = 0.
Proof.
  unfold unit_double. change (Z.of_N 0 mod two53)%Z with 0%Z.
  unfold Rdiv. ring.
Qed.

Lemma unit_double_1 : 0 < unit_double 1 < 0.01.
Proof.
  unfold unit_double. change (Z.of_N 1 mod two53)%Z with 1%Z.
  unfold two53. split.
  - apply Rdiv_lt_0_compat; lra.
  - apply Rmult_lt_reg_r with 9007199254740992; [lra|].
    replace (1 / 9007199254740992 * 9007199254740992) with 1 by (field; lra).
    lra.
Qed.

(** With all raw draws 0: one chord (the tonic triad), both colour tones
    on, scale 0.8, shift -2, no noise. *)
Lemma synth_mix_const0 :
  fst (synth_mix 0 (const_rng 0))
  = vadd (vadd (vadd (vmuls (rot maj_t 0) (0.8 + (1.2 - 0.8) * unit_double 0))
                     (vscale 0.7 (chord_of 0 true [0; 4; 7]%nat
                                           (unit_double 0) (unit_double 0))))
               (vscale 0.15 (roll (rot maj_t 0) (-2))))
         (vscale 0.05 (repeat (unit_double 0) 12)).
Proof. reflexivity. Qed.


(** With all raw draws 1: two chords (both the triad [2;5;9]), the colour
    tones on in both, shift -1. *)
Lemma synth_mix_const1 :
  fst (synth_mix 0 (const_rng 1))
  = let c := chord_of 0 true [2; 5; 9]%nat (unit_double 1) (unit_double 1) in
    vadd (vadd (vadd (vadd (vmuls (rot maj_t 0)
                                  (0.8 + (1.2 - 0.8) * unit_double 1))
                           (vscale 0.7 c))
                     (vscale 0.7 c))
               (vscale 0.15 (roll (rot maj_t 0) (-1))))
         (vscale 0.05 (repeat (unit_double 1) 12)).
Proof. reflexivity. Qed.



Lemma nth_add_at_same v i x :
  (i < length v)%nat -> nth i (add_at v i x) 0 = nth i v 0 + x.
Proof.
  revert i; induction v as [|a v IH]; intros [|i] Hi; simpl in *; try lia.
  - reflexivity.
  - apply IH. lia.
Qed.

Lemma nth_add_at_other v i j x :
  i <> j -> nth j (add_at v i x) 0 = nth j v 0.
Proof.
  revert i j; induction v as [|a v IH]; intros [|i] [|j] Hij; simpl;
    try congruence; auto.
Qed.

Lemma colour_pcs_distinct root is_maj : leading_pc root is_maj <> subdom_pc root.
Proof.
  unfold leading_pc, subdom_pc. intros Heq.
  pose proof (Nat.div_mod_eq (root + 5) 12) as H5.
  destruct is_maj; cbv iota in Heq.
  - pose proof (Nat.div_mod_eq (root + 11) 12) as H11.
    rewrite Heq in H11. lia.
  - pose proof (Nat.div_mod_eq (root + 10) 12) as H10.
    rewrite Heq in H10. lia.
Qed.

Lemma chord_of_leading root is_maj tri x y :
  nth (leading_pc root is_maj) (chord_of root is_maj tri x y) 0
  = nth (leading_pc root is_maj) (triad_vec root tri) 0
    + (if Rltb x 0.35 then 0.7 else 0).
Proof.
  pose proof (colour_pcs_distinct root is_maj) as Hd.
  assert (Hl : (leading_pc root is_maj < length (triad_vec root tri))%nat).
  { rewrite (proj1 (triad_vec_shape root tri)).
    unfold leading_pc. apply Nat.mod_upper_bound. lia. }
  unfold chord_of. cbv zeta.
  destruct (Rltb y 0.25); [rewrite nth_add_at_other by congruence|];
    (destruct (Rltb x 0.35); [now rewrite nth_add_at_same | lra]).
Qed.

Lemma chord_of_subdom root is_maj tri x y :
  nth (subdom_pc root) (chord_of root is_maj tri x y) 0
  = nth (subdom_pc root) (triad_vec root tri) 0
    + (if Rltb y 0.25 then 0.4 else 0).
Proof.
  pose proof (colour_pcs_distinct root is_maj) as Hd.
  assert (Hl : (subdom_pc root < length (triad_vec root tri))%nat).
  { rewrite (proj1 (triad_vec_shape root tri)).
    unfold subdom_pc. apply Nat.mod_upper_bound. lia. }
  unfold chord_of. cbv zeta.
  destruct (Rltb y 0.25).
  - rewrite nth_add_at_same
      by (destruct (Rltb x 0.35); now rewrite ?add_at_length).
    destruct (Rltb x 0.35); [now rewrite nth_add_at_other|reflexivity].
  - destruct (Rltb x 0.35); [rewrite nth_add_at_other by assumption|]; lra.
Qed.

Lemma chord_vec_is_chord root is_maj :
  post (chord_vec root is_maj) (is_chord root is_maj).
Proof.
  unfold chord_vec.
  eapply post_bind.
  { apply random_choice_In. destruct is_maj; discriminate. }
  intros tri Htri.
  step random_random_range. intros x Hx.
  step random_random_range. intros y Hy.
  apply post_ret. exists tri, x, y. repeat split; try assumption;
    try apply Hx; try apply Hy.
Qed.

Lemma mix_chords_chords n r is_maj mix :
  post (mix_chords n r is_maj mix)
       (fun v => exists chords,
            length chords = n /\ Forall (is_chord r is_maj) chords /\
            v = fold_left (fun m c => vadd m (vscale 0.7 c)) chords mix).
Proof.
  revert mix. induction n as [|n IH]; intros mix; cbn [mix_chords].
  - apply post_ret. exists []. repeat split. constructor.
  - step chord_vec_is_chord. intros c Hc.
    eapply post_weaken; [apply IH|].
    cbn beta. intros v (chords & Hl & Hf & Hv).
    exists (c :: chords). split; [simpl; congruence|].
    split; [now constructor|]. exact Hv.
Qed.






















(* ================================================================= *)
(** ** The synthesizer depends on the generators *)

(** Two states of the generators give two different mixtures: the output
    of the synthesizer is a function of the draws. *)
Lemma synth_mix_depends_on_rng :
  fst (synth_mix 0 (const_rng 0)) <> fst (synth_mix 0 (const_rng 1)).
Proof.
  intros Heq.
  assert (H : nth 0 (fst (synth_mix 0 (const_rng 0))) 0
              = nth 0 (fst (synth_mix 0 (const_rng 1))) 0) by now rewrite Heq.
  revert H. rewrite synth_mix_const0, synth_mix_const1.
  unfold chord_of. cbv zeta.
  pose proof unit_double_1 as Hu.
  rewrite !unit_double_0, !Rltb_true by lra.
  pose proof norm_maj_bounds as [Hlo Hhi].
  unfold maj_t. set (n := norm maj_lit) in *.
  set (e := unit_double 1) in *. simpl.
  assert (Ht : 0 < / n < 0.1).
  { split; [apply Rinv_0_lt_compat; lra|].
    replace 0.1 with (/ 10) by lra. apply Rinv_lt_contravar; lra. }
  unfold Rdiv. set (t := / n) in *.
  assert (Hp : 0 <= t * e <= 0.001) by nra.
  clearbody t e. intros H. nra.
Qed.

(* ================================================================= *)
(** ** Cross-checks in floating point *)

(** In binary32 the noise-free template of every class still scores
    strictly highest at its own class. *)
Lemma noise_free_argmax_binary32 : Ieee.argmax_ok = true.
Proof. vm_compute. reflexivity. Qed.

(** In binary32 the squares of each template sum to 1 or to one of its two
    neighbouring floats. *)
Lemma unit_norm_binary32 : Ieee.unit_ok = true.
Proof. vm_compute. reflexivity. Qed.

(** For up to 5000 samples per class the double-precision split point is
    the floor of nine tenths of the dataset size. *)
Lemma split_point_binary64 :
  forallb (fun n => double_split_ok (24 * Z.of_nat n)) (seq 0 (50 * 100 + 1))
  = true.
Proof. vm_compute. reflexivity. Qed.

(* ================================================================= *)
(** ** Rotations compose *)

Section RotateCompose.
Context {A : Type}.
Implicit Types (v : list A) (r s : Z) (n m : nat).

Lemma rotl1_length v : length (rotl1 v) = length v.
Proof.
  destruct v as [|x v]; simpl; [reflexivity|].
  rewrite length_app. simpl. lia.
Qed.

Lemma RotateLeft_length v n : length (RotateLeft v n) = length v.
Proof.
  revert v; induction n as [|n IH]; intros v; simpl; [reflexivity|].
  now rewrite IH, rotl1_length.
Qed.

Lemma RotateLeft_add v n m :
  RotateLeft (RotateLeft v n) m = RotateLeft v (n + m).
Proof.
  revert v; induction n as [|n IH]; intros v; simpl; [reflexivity|].
  apply IH.
Qed.

Lemma RotateLeft_rotl1 v n : RotateLeft (rotl1 v) n = rotl1 (RotateLeft v n).
Proof.
  change (RotateLeft (rotl1 v) n) with (RotateLeft v (S n)).
  replace (S n) with (n + 1)%nat by lia.
  now rewrite <- RotateLeft_add.
Qed.

Lemma RotateLeft_full v : RotateLeft v (length v) = v.
Proof.
  rewrite RotateLeft_split by lia.
  now rewrite skipn_all, firstn_all.
Qed.

Lemma RotateLeft_period v n :
  length v = 12%nat -> RotateLeft v (n + 12) = RotateLeft v n.
Proof.
  intros Hv. rewrite Nat.add_comm, <- RotateLeft_add.
  pose proof (RotateLeft_full v) as H. rewrite Hv in H. now rewrite H.
Qed.

Lemma rot_mod v r s : (r mod 12 = s mod 12)%Z -> rot v r = rot v s.
Proof. intros H. unfold rot. now rewrite H. Qed.

Lemma rot_rot v r s :
  length v = 12%nat -> rot (rot v r) s = rot v (r + s).
Proof.
  intros Hv.
  rewrite (rot_RotateLeft (rot v r)) by (now rewrite rot_length).
  rewrite !(rot_RotateLeft v) by assumption.
  rewrite RotateLeft_add.
  pose proof (Z.mod_pos_bound r 12 ltac:(lia)) as Hr.
  pose proof (Z.mod_pos_bound s 12 ltac:(lia)) as Hs.
  destruct (Z_lt_le_dec (r mod 12 + s mod 12) 12) as [Hlt|Hge].
  - f_equal. rewrite Z.add_mod by lia.
    rewrite (Z.mod_small (r mod 12 + s mod 12)) by lia. lia.
  - rewrite <- (RotateLeft_period v (Z.to_nat ((r + s) mod 12))) by assumption.
    f_equal. rewrite (Z.add_mod r s) by lia.
    replace (r mod 12 + s mod 12)%Z
      with ((r mod 12 + s mod 12 - 12) + 1 * 12)%Z by lia.
    rewrite Z.mod_add by lia.
    rewrite (Z.mod_small (r mod 12 + s mod 12 - 12)) by lia. lia.
Qed.

Lemma rot_zero v : length v = 12%nat -> rot v 0 = v.
Proof.
  intros Hv. unfold rot. simpl. apply app_nil_r.
Qed.

Lemma roll_rot v r : length v = 12%nat -> roll v r = rot v (- r).
Proof.
  intros Hv. unfold roll, rot. rewrite Hv.
  change (Z.of_nat 12) with 12%Z.
  pose proof (Z.mod_pos_bound r 12 ltac:(lia)) as Hr.
  destruct (Z.eq_dec (r mod 12) 0) as [H0|Hn0].
  - assert (Hneg : (- r mod 12 = 0)%Z) by (apply Z.mod_opp_l_z; lia).
    rewrite H0, Hneg. change (Z.to_nat 0) with O. rewrite Nat.sub_0_r.
    rewrite skipn_all2, firstn_all2 by lia. simpl. now rewrite app_nil_r.
  - assert (Hneg : (- r mod 12 = 12 - r mod 12)%Z)
      by (apply Z.mod_opp_l_nz; lia).
    rewrite Hneg.
    replace (12 - Z.to_nat (r mod 12))%nat
      with (Z.to_nat (12 - r mod 12)) by lia.
    reflexivity.
Qed.
End RotateCompose.

(** X1. On 12-element arrays rotations compose by adding their amounts,
    for all integers; rotating by 0 or by a multiple of 12 is the identity. *)
Theorem rot_compose (A : Type) (v : list A) (r s k : Z)
  (Hv : length v = 12%nat) :
  rot (rot v r) s = rot v (r + s) /\
  rot (rot v r) s = rot (rot v s) r /\
  rot v (12 * k) = v.
Proof.
  split; [now apply rot_rot|]. split.
  - rewrite !rot_rot by assumption. f_equal. lia.
  - rewrite (rot_mod v (12 * k) 0); [now apply rot_zero|].
    rewrite Z.mul_comm. now rewrite Z.mod_mul by lia.
Qed.

Lemma rot_compose_witness :
  length [0; 1; 2; 3; 4; 5; 6; 7; 8; 9; 10; 11]%nat = 12%nat /\
  rot (rot [0; 1; 2; 3; 4; 5; 6; 7; 8; 9; 10; 11]%nat 7) (-9)
  = rot [0; 1; 2; 3; 4; 5; 6; 7; 8; 9; 10; 11]%nat (7 + -9).
Proof.
  split; [reflexivity|].
  exact (proj1 (rot_compose nat [0; 1; 2; 3; 4; 5; 6; 7; 8; 9; 10; 11]%nat
                  7 (-9) 0 eq_refl)).
Defined.

(** X2. [np.roll] is [rot] in the opposite direction: on 12-element arrays
    [roll v k] is [rot v (-k)], so rolling undoes a rotation by the same
    amount and the other way round. *)
Theorem roll_undoes_rot (A : Type) (v : list A) (k : Z)
  (Hv : length v = 12%nat) :
  roll v k = rot v (- k) /\
  roll (rot v k) k = v /\
  rot (roll v k) k = v.
Proof.
  split; [now apply roll_rot|]. split.
  - rewrite roll_rot by (now rewrite rot_length).
    rewrite rot_rot by assumption.
    replace (k + - k)%Z with 0%Z by lia. now apply rot_zero.
  - rewrite roll_rot by assumption.
    rewrite rot_rot by assumption.
    replace (- k + k)%Z with 0%Z by lia. now apply rot_zero.
Qed.

Lemma roll_undoes_rot_witness :
  length [0; 1; 2; 3; 4; 5; 6; 7; 8; 9; 10; 11]%nat = 12%nat /\
  roll (rot [0; 1; 2; 3; 4; 5; 6; 7; 8; 9; 10; 11]%nat 5) 5
  = [0; 1; 2; 3; 4; 5; 6; 7; 8; 9; 10; 11]%nat.
Proof.
  split; [reflexivity|].
  exact (proj1 (proj2 (roll_undoes_rot nat
                          [0; 1; 2; 3; 4; 5; 6; 7; 8; 9; 10; 11]%nat 5
                          eq_refl))).
Defined.

(* ================================================================= *)
(** ** Templates of neighbouring keys *)

(** The class of the same mode whose tonic is [m] semitones above. *)
Lemma class_shift_ok :
  forallb (fun cls =>
    forallb (fun m =>
      let c' := ((cls + 2 * m) mod 24)%nat in
      ((c' mod 2 =? cls mod 2)%nat
       && (Z.of_nat (c' / 2) mod 12 =? (Z.of_nat (cls / 2) + Z.of_nat m) mod 12)%Z))
      (seq 0 12))
    (seq 0 24) = true.
Proof. vm_compute. reflexivity. Qed.

Lemma class_shift cls m :
  (cls < 24)%nat -> (m < 12)%nat ->
  let c' := ((cls + 2 * m) mod 24)%nat in
  (c' mod 2 = cls mod 2)%nat /\
  (Z.of_nat (c' / 2) mod 12 = (Z.of_nat (cls / 2) + Z.of_nat m) mod 12)%Z.
Proof.
  intros Hc Hm c'.
  pose proof class_shift_ok as H. rewrite forallb_forall in H.
  specialize (H cls ltac:(apply in_seq; lia)).
  rewrite forallb_forall in H.
  specialize (H m ltac:(apply in_seq; lia)).
  apply andb_true_iff in H. destruct H as [H1 H2].
  apply Nat.eqb_eq in H1. apply Z.eqb_eq in H2. split; assumption.
Qed.

Lemma rot_rotatedProfile cls t :
  (cls < 24)%nat ->
  rot (rotatedProfile cls) t
  = rotatedProfile ((cls + 2 * Z.to_nat (t mod 12)) mod 24).
Proof.
  intros Hc.
  pose proof (Z.mod_pos_bound t 12 ltac:(lia)) as Ht.
  destruct (class_shift cls (Z.to_nat (t mod 12)) Hc ltac:(lia)) as [Hp Hq].
  cbv zeta in Hp, Hq.
  unfold rotatedProfile at 2. unfold baseProfile. rewrite Hp.
  fold (baseProfile cls).
  unfold rotatedProfile. rewrite rot_rot by apply baseProfile_length.
  apply rot_mod. rewrite Hq.
  rewrite Z2Nat.id by lia.
  rewrite Z.add_mod_idemp_r by lia. reflexivity.
Qed.

Lemma rot_one {A} (v : list A) : length v = 12%nat -> rot v 1 = rotl1 v.
Proof.
  intros Hv. destruct v as [|x v]; [discriminate|]. reflexivity.
Qed.

(** X3. Rotating the template of a key class gives the template of the
    class of the same mode whose tonic index is that much higher, wrapping
    at 12 tonics; in particular the templates of classes [k] and [k + 2]
    (mod 24) differ by exactly one left-rotation step. *)
Theorem rotatedProfile_neighbours (k : nat) (t : Z) (Hk : (k < 24)%nat) :
  rot (rotatedProfile k) t
  = rotatedProfile ((k + 2 * Z.to_nat (t mod 12)) mod 24) /\
  rotatedProfile ((k + 2) mod 24) = rotl1 (rotatedProfile k).
Proof.
  split; [now apply rot_rotatedProfile|].
  rewrite <- rot_one by apply rotatedProfile_length.
  now rewrite rot_rotatedProfile.
Qed.

Lemma rotatedProfile_neighbours_witness :
  (22 < 24)%nat /\
  rotatedProfile ((22 + 2) mod 24) = rotl1 (rotatedProfile 22).
Proof.
  split; [lia|].
  exact (proj2 (rotatedProfile_neighbours 22 0 ltac:(lia))).
Defined.

Lemma train_base_is_template cls :
  rot (if (cls mod 2 =? 0)%nat then maj_t else min_t) (Z.of_nat (cls / 2))
  = rotatedProfile cls.
Proof. reflexivity. Qed.

(** X4. The smear term of [synth_sample], [np.roll(base, s)], is the
    template of the key of the same mode [s] tonic indices lower (mod 12);
    for the four shifts the script draws from, [-2], [-1], [1] and [2],
    these are the classes [cls + 4], [cls + 2], [cls + 22] and [cls + 20]
    (mod 24). *)
Theorem smear_is_neighbour_template (cls : nat) (s : Z)
  (Hcls : (cls < 24)%nat) :
  let base := rot (if (cls mod 2 =? 0)%nat then maj_t else min_t)
                  (Z.of_nat (cls / 2)) in
  roll base s = rotatedProfile ((cls + 2 * Z.to_nat (- s mod 12)) mod 24) /\
  roll base (-2) = rotatedProfile ((cls + 4) mod 24) /\
  roll base (-1) = rotatedProfile ((cls + 2) mod 24) /\
  roll base 1 = rotatedProfile ((cls + 22) mod 24) /\
  roll base 2 = rotatedProfile ((cls + 20) mod 24).
Proof.
  intros base. unfold base. rewrite train_base_is_template.
  assert (H : forall z, roll (rotatedProfile cls) z
                        = rotatedProfile ((cls + 2 * Z.to_nat (- z mod 12))
                                          mod 24)).
  { intros z. rewrite roll_rot by apply rotatedProfile_length.
    now apply rot_rotatedProfile. }
  split; [apply H|].
  repeat split; rewrite H; reflexivity.
Qed.

Lemma smear_is_neighbour_template_witness :
  (5 < 24)%nat /\
  roll (rot (if (5 mod 2 =? 0)%nat then maj_t else min_t) (Z.of_nat (5 / 2)))
       1
  = rotatedProfile ((5 + 22) mod 24).
Proof.
  split; [lia|].
  exact (proj1 (proj2 (proj2 (proj2
    (smear_is_neighbour_template 5 1 ltac:(lia)))))).
Defined.

(* ================================================================= *)
(** ** The analytic classifier as a linear map *)

Lemma baseProfile_between i : between 0.17 0.5 (baseProfile i).
Proof.
  unfold baseProfile. destruct (i mod 2 =? 0)%nat;
    [exact maj_t_between | exact min_t_between].
Qed.

Lemma rotatedProfile_between i : between 0.17 0.5 (rotatedProfile i).
Proof.
  unfold rotatedProfile.
  eapply between_Permutation;
    [apply Permutation_sym, rot_Permutation | apply baseProfile_between].
Qed.

Lemma dot_between lo hi x t :
  length x = length t -> Forall (fun a => 0 <= a) x -> between lo hi t ->
  lo * vsum x <= dot x t <= hi * vsum x.
Proof.
  unfold dot. revert t. induction x as [|a x IH]; intros [|c t] Hl Hx Ht;
    simpl in *; try discriminate; [lra|].
  inversion Hx as [|? ? Ha Hx']; subst.
  inversion Ht as [|? ? Hc Ht']; subst.
  specialize (IH t ltac:(lia) Hx' Ht'). nra.
Qed.

Lemma dot_vscale c x t : dot (vscale c x) t = c * dot x t.
Proof.
  unfold dot, vscale. revert t. induction x as [|a x IH]; intros [|e t];
    simpl; try lra. rewrite IH. lra.
Qed.

Lemma dot_vadd x y t :
  length x = length y -> dot (vadd x y) t = dot x t + dot y t.
Proof.
  unfold dot, vadd. revert y t.
  induction x as [|a x IH]; intros [|e y] [|c t] Hl; simpl in *;
    try discriminate; try lra.
  rewrite IH by lia. lra.
Qed.

Lemma logits_dot x j :
  (j < 24)%nat -> nth j (logits x) 0 = dot x (rotatedProfile j).
Proof.
  intros Hj. rewrite logits_entry, W_col by assumption.
  unfold b, zeros. rewrite nth_repeat. lra.
Qed.

(** X5. Every weight of the analytic classifier lies in [[0.17, 0.5]], so
    for a chroma vector with 12 non-negative entries every score lies
    between 0.17 and 0.5 times the sum of the entries (between 0.17 and 0.5
    for a vector that sums to 1). *)
Theorem analytic_scores_band (x : vec) (j : nat)
  (Hj : (j < 24)%nat) (Hlen : length x = 12%nat)
  (Hx : Forall (fun a => 0 <= a) x) :
  Forall (fun w => 0.17 <= w <= 0.5) (col j W) /\
  0.17 * vsum x <= nth j (logits x) 0 <= 0.5 * vsum x /\
  (vsum x = 1 -> 0.17 <= nth j (logits x) 0 <= 0.5).
Proof.
  assert (Hband : 0.17 * vsum x <= nth j (logits x) 0 <= 0.5 * vsum x).
  { rewrite logits_dot by assumption.
    apply dot_between; [now rewrite rotatedProfile_length | exact Hx |].
    apply rotatedProfile_between. }
  split; [|split].
  - rewrite W_col by assumption. apply rotatedProfile_between.
  - exact Hband.
  - intros H1. rewrite H1 in Hband. lra.
Qed.

Lemma analytic_scores_band_witness :
  (7 < 24)%nat /\
  length [0; 0; 1; 0; 0; 0; 0; 0; 0; 0; 0; 0] = 12%nat /\
  0.17 <= nth 7 (logits [0; 0; 1; 0; 0; 0; 0; 0; 0; 0; 0; 0]) 0 <= 0.5.
Proof.
  split; [lia|]. split; [reflexivity|].
  apply (analytic_scores_band [0; 0; 1; 0; 0; 0; 0; 0; 0; 0; 0; 0] 7
           ltac:(lia) eq_refl).
  - repeat (apply Forall_cons; [lra|]). apply Forall_nil.
  - simpl. lra.
Defined.

(** X6. The analytic classifier is linear in its input (its bias is zero):
    scores of a scaled vector are the scaled scores, scores of a sum are
    the sums of the scores, and scaling the input by a positive factor
    never changes how two classes compare. *)
Theorem analytic_scores_linear (x y : vec) (c : R) (i j : nat)
  (Hi : (i < 24)%nat) (Hj : (j < 24)%nat)
  (Hlen : length x = length y) (Hc : 0 < c) :
  nth j (logits (vscale c x)) 0 = c * nth j (logits x) 0 /\
  nth j (logits (vadd x y)) 0 = nth j (logits x) 0 + nth j (logits y) 0 /\
  (nth i (logits (vscale c x)) 0 < nth j (logits (vscale c x)) 0
   <-> nth i (logits x) 0 < nth j (logits x) 0).
Proof.
  rewrite !logits_dot by assumption.
  rewrite !dot_vscale, dot_vadd by assumption.
  split; [reflexivity|]. split; [reflexivity|].
  split; intros H; nra.
Qed.

Lemma analytic_scores_linear_witness :
  (0 < 24)%nat /\ (3 < 24)%nat /\ 0 < 2 /\
  nth 3 (logits (vscale 2 [1; 0; 0; 0; 0; 0; 0; 0; 0; 0; 0; 0])) 0
  = 2 * nth 3 (logits [1; 0; 0; 0; 0; 0; 0; 0; 0; 0; 0; 0]) 0.
Proof.
  split; [lia|]. split; [lia|]. split; [lra|].
  exact (proj1 (analytic_scores_linear
                  [1; 0; 0; 0; 0; 0; 0; 0; 0; 0; 0; 0]
                  [1; 0; 0; 0; 0; 0; 0; 0; 0; 0; 0; 0] 2 0 3
                  ltac:(lia) ltac:(lia) eq_refl ltac:(lra))).
Defined.

(* ================================================================= *)
(** ** A single pitch class as input *)

Lemma dot_one_hot12 p v :
  (p < 12)%nat -> length v = 12%nat -> dot (one_hot 12 p) v = nth p v 0.
Proof.
  intros Hp Hv.
  do 12 (destruct v as [|? v]; [discriminate|]).
  destruct v; [|discriminate].
  unfold dot, one_hot.
  do 12 (destruct p as [|p]; [simpl; lra|]). lia.
Qed.

Lemma maj_peak idx :
  (1 <= idx < 12)%nat -> nth idx maj 0 < 0.48 /\ 0.49 < nth 0 maj 0.
Proof.
  intros Hidx.
  pose proof norm_maj_bounds as [Hlo Hhi].
  unfold maj. set (n := norm maj_lit) in *.
  assert (Hq : forall a, a / n < 0.48 <-> a < 0.48 * n).
  { intros a. split; intros H.
    - apply (Rmult_lt_compat_r n) in H; [|lra].
      replace (a / n * n) with a in H by (field; lra). exact H.
    - apply (Rmult_lt_reg_r n); [lra|].
      replace (a / n * n) with a by (field; lra). exact H. }
  split.
  - unfold vdiv, maj_lit. cbn [map].
    destruct idx as [|idx]; [lia|].
    do 11 (destruct idx as [|idx]; [cbn [nth]; apply Hq; lra|]). lia.
  - unfold vdiv, maj_lit. cbn [map nth].
    apply (Rmult_lt_reg_r n); [lra|].
    replace (6.35 / n * n) with 6.35 by (field; lra). lra.
Qed.

Lemma minr_below idx : (idx < 12)%nat -> nth idx minr 0 < 0.48.
Proof.
  intros Hidx.
  pose proof norm_min_bounds as [Hlo Hhi].
  unfold minr. set (n := norm min_lit) in *.
  unfold vdiv, min_lit. cbn [map].
  do 12 (destruct idx as [|idx];
         [cbn [nth]; apply (Rmult_lt_reg_r n); [lra|];
          match goal with |- ?a / n * n < _ =>
            replace (a / n * n) with a by (field; lra) end; lra|]).
  lia.
Qed.

Lemma pure_tone_index_ok :
  forallb (fun p =>
    forallb (fun j =>
      let m := ((12 - p) mod 12)%nat in
      if (j =? 2 * m)%nat
      then ((j mod 2 =? 0) && ((p + j / 2) mod 12 =? 0))%nat
      else negb ((j mod 2 =? 0) && ((p + j / 2) mod 12 =? 0))%nat)
      (seq 0 24))
    (seq 0 12) = true.
Proof. vm_compute. reflexivity. Qed.

Lemma pure_tone_index p j :
  (p < 12)%nat -> (j < 24)%nat ->
  ((j mod 2 =? 0) && ((p + j / 2) mod 12 =? 0))%nat
  = (j =? 2 * ((12 - p) mod 12))%nat.
Proof.
  intros Hp Hj.
  pose proof pure_tone_index_ok as H. rewrite forallb_forall in H.
  specialize (H p ltac:(apply in_seq; lia)).
  rewrite forallb_forall in H.
  specialize (H j ltac:(apply in_seq; lia)). cbv zeta in H.
  destruct (j =? 2 * ((12 - p) mod 12))%nat; [exact H|].
  now apply negb_true_iff in H.
Qed.

Lemma pure_tone_score p j :
  (p < 12)%nat -> (j < 24)%nat ->
  nth j (logits (one_hot 12 p)) 0
  = nth ((p + j / 2) mod 12) (baseProfile j) 0.
Proof.
  intros Hp Hj.
  rewrite logits_dot, dot_one_hot12 by (auto using rotatedProfile_length).
  now apply rotatedProfile_nth.
Qed.

(** X7. Fed a single pitch class [p] (a one-hot chroma vector), the
    analytic classifier scores highest, and strictly so, the major class
    whose tonic index is [(12 - p) mod 12]: class [2 * ((12 - p) mod 12)].
    Its score is the tonic weight of the major profile; it is class [2 * p]
    only for [p = 0] and [p = 6]. *)
Theorem pure_tone_winner (p j : nat)
  (Hp : (p < 12)%nat) (Hj : (j < 24)%nat)
  (Hne : j <> (2 * ((12 - p) mod 12))%nat) :
  nth j (logits (one_hot 12 p)) 0
  < nth (2 * ((12 - p) mod 12)) (logits (one_hot 12 p)) 0 /\
  nth (2 * ((12 - p) mod 12)) (logits (one_hot 12 p)) 0 = nth 0 maj 0 /\
  ((2 * ((12 - p) mod 12) = 2 * p)%nat <-> p = 0%nat \/ p = 6%nat).
Proof.
  set (w := (2 * ((12 - p) mod 12))%nat) in *.
  assert (Hw : (w < 24)%nat).
  { unfold w. pose proof (Nat.mod_upper_bound (12 - p) 12 ltac:(lia)). lia. }
  assert (Hwin : nth w (logits (one_hot 12 p)) 0 = nth 0 maj 0).
  { rewrite pure_tone_score by assumption.
    pose proof (pure_tone_index p w Hp Hw) as H.
    fold w in H. rewrite Nat.eqb_refl in H.
    apply andb_true_iff in H. destruct H as [H1 H2].
    apply Nat.eqb_eq in H2. unfold baseProfile. now rewrite H1, H2. }
  split; [|split; [exact Hwin|]].
  - rewrite Hwin, pure_tone_score by assumption.
    pose proof (pure_tone_index p j Hp Hj) as H. fold w in H.
    replace (j =? w)%nat with false in H
      by (symmetry; now apply Nat.eqb_neq).
    pose proof (Nat.mod_upper_bound (p + j / 2) 12 ltac:(lia)) as Hidx.
    unfold baseProfile.
    destruct (j mod 2 =? 0)%nat eqn:Hpar.
    + cbn [andb] in H. apply Nat.eqb_neq in H.
      destruct (maj_peak ((p + j / 2) mod 12) ltac:(lia)). lra.
    + pose proof (minr_below ((p + j / 2) mod 12) Hidx).
      destruct (maj_peak 1 ltac:(lia)). lra.
  - unfold w. split.
    + intros H.
      do 12 (destruct p as [|p]; [simpl in H; lia|]). lia.
    + intros [-> | ->]; reflexivity.
Qed.

Lemma pure_tone_winner_witness :
  (2 < 12)%nat /\ (4 < 24)%nat /\ 4%nat <> (2 * ((12 - 2) mod 12))%nat /\
  nth 4 (logits (one_hot 12 2)) 0 < nth 20 (logits (one_hot 12 2)) 0.
Proof.
  split; [lia|]. split; [lia|]. split; [simpl; lia|].
  exact (proj1 (pure_tone_winner 2 4 ltac:(lia) ltac:(lia)
                  ltac:(simpl; lia))).
Defined.

(* ================================================================= *)
(** ** Where a chord vector puts its energy *)

Lemma nth_add_at v i j x :
  (i < length v)%nat ->
  nth j (add_at v i x) 0 = nth j v 0 + (if (j =? i)%nat then x else 0).
Proof.
  intros Hi. destruct (Nat.eqb_spec j i) as [->|Hne].
  - now apply nth_add_at_same.
  - rewrite nth_add_at_other by congruence. lra.
Qed.

Lemma vsum_add_at v i x :
  (i < length v)%nat -> vsum (add_at v i x) = vsum v + x.
Proof.
  revert i; induction v as [|a v IH]; intros [|i] Hi; simpl in *; try lia.
  - lra.
  - rewrite IH by lia. lra.
Qed.

Lemma triad_fold_nth root tri v0 j :
  length v0 = 12%nat ->
  nth j (fold_left (fun v s => add_at v ((root + s) mod 12)%nat 1) tri v0) 0
  = nth j v0 0
    + INR (count_occ Nat.eq_dec (map (fun s => ((root + s) mod 12)%nat) tri) j).
Proof.
  revert v0. induction tri as [|s tri IH]; intros v0 Hl; cbn [fold_left map].
  - simpl. lra.
  - rewrite IH by (now rewrite add_at_length).
    assert (Hs : ((root + s) mod 12 < length v0)%nat)
      by (rewrite Hl; apply Nat.mod_upper_bound; lia).
    rewrite nth_add_at by assumption.
    cbn [count_occ].
    destruct (Nat.eq_dec ((root + s) mod 12) j) as [Heq|Hne].
    + rewrite S_INR. subst j. rewrite Nat.eqb_refl. lra.
    + replace (j =? (root + s) mod 12)%nat with false
        by (symmetry; apply Nat.eqb_neq; congruence). lra.
Qed.

Lemma triad_vec_nth root tri j :
  nth j (triad_vec root tri) 0
  = INR (count_occ Nat.eq_dec (map (fun s => ((root + s) mod 12)%nat) tri) j).
Proof.
  unfold triad_vec. rewrite triad_fold_nth by apply zeros_length.
  unfold zeros. rewrite nth_repeat. lra.
Qed.

Lemma triad_fold_vsum root tri v0 :
  length v0 = 12%nat ->
  vsum (fold_left (fun v s => add_at v ((root + s) mod 12)%nat 1) tri v0)
  = vsum v0 + INR (length tri).
Proof.
  revert v0. induction tri as [|s tri IH]; intros v0 Hl; cbn [fold_left length].
  - simpl. lra.
  - rewrite IH by (now rewrite add_at_length).
    rewrite vsum_add_at
      by (rewrite Hl; apply Nat.mod_upper_bound; lia).
    rewrite S_INR. lra.
Qed.

Lemma vsum_zeros n : vsum (zeros n) = 0.
Proof. unfold zeros. induction n; simpl; lra. Qed.

Lemma triad_vec_vsum root tri : vsum (triad_vec root tri) = INR (length tri).
Proof.
  unfold triad_vec. rewrite triad_fold_vsum by apply zeros_length.
  rewrite vsum_zeros. lra.
Qed.

Lemma colour_tones_in_table (is_maj : bool) :
  In (if is_maj then 11 else 10)%nat
     (concat (if is_maj then maj_degrees else min_degrees)) /\
  In 5%nat (concat (if is_maj then maj_degrees else min_degrees)).
Proof. destruct is_maj; simpl; tauto. Qed.

Lemma chord_of_support (root : nat) (is_maj : bool) (tri : list nat)
  (x y : R) (j : nat) :
  In tri (if is_maj then maj_degrees else min_degrees) ->
  nth j (chord_of root is_maj tri x y) 0 <> 0 ->
  exists s, In s (concat (if is_maj then maj_degrees else min_degrees)) /\
            j = ((root + s) mod 12)%nat.
Proof.
  intros Htri Hnz.
  destruct (colour_tones_in_table is_maj) as [Hlt Hsd].
  assert (Hlen : length (triad_vec root tri) = 12%nat)
    by apply triad_vec_shape.
  destruct (Nat.eq_dec j (leading_pc root is_maj)) as [->|Hnl];
    [now exists (if is_maj then 11 else 10)%nat|].
  destruct (Nat.eq_dec j (subdom_pc root)) as [->|Hns];
    [now exists 5%nat|].
  assert (Hj : nth j (chord_of root is_maj tri x y) 0
               = nth j (triad_vec root tri) 0).
  { unfold chord_of. cbv zeta.
    destruct (Rltb y 0.25); [rewrite nth_add_at_other by congruence|];
      (destruct (Rltb x 0.35); [now rewrite nth_add_at_other by congruence
                               |reflexivity]). }
  rewrite Hj, triad_vec_nth in Hnz.
  destruct (count_occ Nat.eq_dec
              (map (fun s => ((root + s) mod 12)%nat) tri) j) eqn:Hc;
    [simpl in Hnz; lra|].
  assert (Hin : In j (map (fun s => ((root + s) mod 12)%nat) tri))
    by (apply (count_occ_In Nat.eq_dec); lia).
  apply in_map_iff in Hin. destruct Hin as (s & Hs & Hin).
  exists s. split; [|now symmetry].
  apply in_concat. now exists tri.
Qed.

(** X8. A chord vector has energy only on pitch classes of the key's scale:
    wherever an entry of [chord_vec(root, is_maj)] is non-zero, its index is
    [(root + s) mod 12] for a degree [s] of the mode's triad table (the
    colour tones 10/11 and 5 are degrees of the table themselves); and no
    entry is negative. *)
Theorem chord_vec_on_scale (root : nat) (is_maj : bool) (g : rng) (j : nat) :
  let c := fst (chord_vec root is_maj g) in
  (nth j c 0 <> 0 ->
   exists s, In s (concat (if is_maj then maj_degrees else min_degrees)) /\
             j = ((root + s) mod 12)%nat) /\
  0 <= nth j c 0.
Proof.
  intros c.
  destruct (chord_vec_is_chord root is_maj g)
    as (tri & x & y & Htri & _ & _ & Hc).
  fold c in Hc. split.
  - rewrite Hc. now apply chord_of_support.
  - destruct (chord_vec_shape root is_maj g) as [Hl Hb]. fold c in Hl, Hb.
    destruct (Nat.lt_ge_cases j (length c)) as [Hlt|Hge].
    + pose proof (proj1 (Forall_forall _ _) Hb (nth j c 0)
                    (nth_In c 0 Hlt)) as H. simpl in H. lra.
    + rewrite nth_overflow by assumption. lra.
Qed.

(** X9. A chord vector has 12 entries and its total energy is 3 for the
    triad plus 0.7 when the leading tone is on plus 0.4 when the
    subdominant is on: one of 3, 3.4, 3.7 and 4.1.  Every pitch class of
    the drawn triad carries at least 1. *)
Theorem chord_vec_energy (root : nat) (is_maj : bool) (g : rng) :
  let c := fst (chord_vec root is_maj g) in
  length c = 12%nat /\
  (vsum c = 3 \/ vsum c = 3.4 \/ vsum c = 3.7 \/ vsum c = 4.1) /\
  exists tri, In tri (if is_maj then maj_degrees else min_degrees) /\
              forall s, In s tri -> 1 <= nth ((root + s) mod 12) c 0.
Proof.
  intros c.
  destruct (chord_vec_is_chord root is_maj g)
    as (tri & x & y & Htri & _ & _ & Hc).
  fold c in Hc.
  pose proof (degrees_triads is_maj tri Htri) as H3.
  assert (Hlen : length (triad_vec root tri) = 12%nat)
    by apply triad_vec_shape.
  assert (Hl : (leading_pc root is_maj < 12)%nat)
    by (unfold leading_pc; apply Nat.mod_upper_bound; lia).
  assert (Hs : (subdom_pc root < 12)%nat)
    by (unfold subdom_pc; apply Nat.mod_upper_bound; lia).
  split; [apply chord_vec_shape|]. split.
  - rewrite Hc. unfold chord_of. cbv zeta.
    destruct (Rltb x 0.35), (Rltb y 0.25);
      rewrite ?vsum_add_at by (rewrite ?add_at_length; lia);
      rewrite triad_vec_vsum, H3; simpl; lra.
  - exists tri. split; [exact Htri|]. intros s Hin.
    assert (Ht : 1 <= nth ((root + s) mod 12) (triad_vec root tri) 0).
    { rewrite triad_vec_nth.
      assert (Hc1 : (1 <= count_occ Nat.eq_dec
                           (map (fun s => ((root + s) mod 12)%nat) tri)
                           ((root + s) mod 12))%nat).
      { apply (count_occ_In Nat.eq_dec). apply in_map_iff. now exists s. }
      apply le_INR in Hc1. change (INR 1) with 1 in Hc1. exact Hc1. }
    rewrite Hc. unfold chord_of. cbv zeta.
    destruct (Rltb x 0.35), (Rltb y 0.25);
      rewrite ?nth_add_at by (rewrite ?add_at_length; lia);
      repeat match goal with |- context [if ?b then _ else _] =>
               destruct b end; lra.
Qed.

(* ================================================================= *)
(** ** The clip, and class indices beyond 23 *)

(** X10. The clip of [synth_sample] never changes the mixture: before
    clipping every entry already lies in [[0.1, 10]], so the sample is the
    mixture divided by its sum and each entry of the sample is above
    0.0008, far from the floor 1e-6. *)
Theorem clip_never_fires (cls : nat) (g : rng) :
  let mix := fst (synth_mix cls g) in
  Forall (fun x => 0.1 <= x <= 10) mix /\
  clip_min mix floor_const = mix /\
  fst (synth_sample cls g) = vdiv mix (vsum mix) /\
  Forall (fun x => 0.0008 <= x) (fst (synth_sample cls g)).
Proof.
  intros mix.
  destruct (synth_mix_shape cls g) as [Hl Hb]. fold mix in Hl, Hb.
  assert (Hclip : clip_min mix floor_const = mix)
    by (apply clip_min_between with 0.1 10; [unfold floor_const; lra|exact Hb]).
  assert (Hs : fst (synth_sample cls g) = vdiv mix (vsum mix)).
  { rewrite synth_sample_unfold. fold mix. unfold renormalize.
    now rewrite Hclip. }
  split; [exact Hb|]. split; [exact Hclip|]. split; [exact Hs|].
  assert (Hlo : 1.2 <= vsum mix).
  { assert (H : Forall (fun x => 0.1 <= x) mix)
      by (eapply Forall_impl; [|exact Hb]; simpl; intros; lra).
    apply vsum_lower in H. rewrite Hl, INR_12 in H. lra. }
  assert (Hhi : vsum mix <= 120).
  { assert (H : Forall (fun x => x <= 10) mix)
      by (eapply Forall_impl; [|exact Hb]; simpl; intros; lra).
    apply vsum_upper in H. rewrite Hl, INR_12 in H. lra. }
  rewrite Hs. unfold vdiv. apply Forall_map.
  eapply Forall_impl; [|exact Hb]. simpl. intros x Hx.
  apply Rmult_le_reg_r with (vsum mix); [lra|].
  replace (x / vsum mix * vsum mix) with x by (field; lra). nra.
Qed.

Lemma triad_vec_octave r tri : triad_vec (r + 12) tri = triad_vec r tri.
Proof.
  unfold triad_vec. generalize (zeros 12).
  induction tri as [|s tri IH]; intros v; cbn [fold_left]; [reflexivity|].
  replace ((r + 12 + s) mod 12)%nat with ((r + s) mod 12)%nat; [apply IH|].
  replace (r + 12 + s)%nat with (r + s + 1 * 12)%nat by lia.
  now rewrite Nat.Div0.mod_add.
Qed.

Lemma colour_pcs_octave r is_maj :
  leading_pc (r + 12) is_maj = leading_pc r is_maj /\
  subdom_pc (r + 12) = subdom_pc r.
Proof.
  unfold leading_pc, subdom_pc. split.
  - replace (r + 12 + (if is_maj then 11 else 10))%nat
      with (r + (if is_maj then 11 else 10) + 1 * 12)%nat by lia.
    now rewrite Nat.Div0.mod_add.
  - replace (r + 12 + 5)%nat with (r + 5 + 1 * 12)%nat by lia.
    now rewrite Nat.Div0.mod_add.
Qed.

Lemma chord_vec_octave r is_maj g :
  chord_vec (r + 12) is_maj g = chord_vec r is_maj g.
Proof.
  destruct (colour_pcs_octave r is_maj) as [Hl Hs].
  unfold chord_vec, random_choice, random_random, randbelow, next_py,
    bind, ret. cbv beta iota zeta.
  now rewrite triad_vec_octave, Hl, Hs.
Qed.

Lemma mix_chords_octave n r is_maj mix g :
  mix_chords n (r + 12) is_maj mix g = mix_chords n r is_maj mix g.
Proof.
  revert mix g. induction n as [|n IH]; intros mix g; cbn [mix_chords];
    [reflexivity|].
  unfold bind. rewrite chord_vec_octave.
  destruct (chord_vec r is_maj g) as [c g1]. apply IH.
Qed.

(** X11. Class indices are not checked: an index 24 higher gives the same
    template and, from the same generator state, the same synthetic sample
    and the same state afterwards. *)
Theorem class_index_wraps (cls : nat) (g : rng) :
  rotatedProfile (cls + 24) = rotatedProfile cls /\
  synth_sample (cls + 24) g = synth_sample cls g.
Proof.
  assert (Hdiv : ((cls + 24) / 2 = cls / 2 + 12)%nat).
  { replace (cls + 24)%nat with (cls + 12 * 2)%nat by lia.
    now rewrite Nat.div_add by lia. }
  assert (Hmod : ((cls + 24) mod 2 = cls mod 2)%nat).
  { replace (cls + 24)%nat with (cls + 12 * 2)%nat by lia.
    now rewrite Nat.Div0.mod_add. }
  assert (Hrot : forall v : list R,
             rot v (Z.of_nat (cls / 2 + 12)) = rot v (Z.of_nat (cls / 2))).
  { intros v. apply rot_mod.
    rewrite Nat2Z.inj_add. change (Z.of_nat 12) with (1 * 12)%Z.
    now rewrite Z.mod_add by lia. }
  split.
  - unfold rotatedProfile, baseProfile. now rewrite Hdiv, Hmod, Hrot.
  - unfold synth_sample, synth_mix, bind. rewrite Hdiv, Hmod, Hrot.
    destruct (random_uniform 0.8 1.2 g) as [u g1].
    destruct (random_randint 1 3 g1) as [n g2].
    now rewrite mix_chords_octave.
Qed.

(* ================================================================= *)
(** ** How many draws the synthesizer and the dataset builder make *)

Lemma advanced_refl g : advanced 0 0 g g.
Proof. unfold advanced. repeat split; lia. Qed.

Lemma advanced_trans a c a' c' g g1 g2 :
  advanced a c g g1 -> advanced a' c' g1 g2 ->
  advanced (a + a') (c + c') g g2.
Proof.
  unfold advanced. intros (H1 & H2 & H3 & H4) (H5 & H6 & H7 & H8).
  repeat split; try congruence; lia.
Qed.

Lemma draws_ret {A} (a : A) (P : A -> nat -> nat -> Prop) :
  P a O O -> draws (ret a) P.
Proof.
  intros H g. exists O, O. split; [exact H|apply advanced_refl].
Qed.

Lemma draws_bind {A B} (m : M A) (k : A -> M B)
  (P : A -> nat -> nat -> Prop) (Q : B -> nat -> nat -> Prop) :
  draws m P ->
  (forall a d e, P a d e ->
     draws (k a) (fun b d' e' => Q b (d + d')%nat (e + e')%nat)) ->
  draws (bind m k) Q.
Proof.
  intros Hm Hk g. unfold bind.
  destruct (Hm g) as (d & e & HP & Hadv).
  destruct (m g) as [a g1]. cbn [fst snd] in *.
  destruct (Hk a d e HP g1) as (d' & e' & HQ & Hadv').
  exists (d + d')%nat, (e + e')%nat. split; [exact HQ|].
  eapply advanced_trans; eassumption.
Qed.

Lemma draws_weaken {A} (m : M A) (P Q : A -> nat -> nat -> Prop) :
  draws m P -> (forall a d e, P a d e -> Q a d e) -> draws m Q.
Proof.
  intros Hm HPQ g. destruct (Hm g) as (d & e & HP & Hadv).
  exists d, e. split; [now apply HPQ|exact Hadv].
Qed.

Lemma draws_next_py : draws next_py (fun _ d e => d = 1%nat /\ e = O).
Proof.
  intros g. exists 1%nat, O. split; [split; reflexivity|].
  unfold advanced, next_py, advance. cbn. repeat split; lia.
Qed.

Lemma draws_next_np : draws next_np (fun _ d e => d = O /\ e = 1%nat).
Proof.
  intros g. exists O, 1%nat. split; [split; reflexivity|].
  unfold advanced, next_np, advance. cbn. repeat split; lia.
Qed.

Ltac draw lem :=
  eapply draws_bind; [apply lem|]; cbv beta;
  let a := fresh "a" in let d := fresh "d" in let e := fresh "e" in
  intros a d e [-> ->].

Lemma draws_random_random :
  draws random_random (fun _ d e => d = 1%nat /\ e = O).
Proof.
  unfold random_random. draw draws_next_py. apply draws_ret. split; lia.
Qed.

Lemma draws_randbelow n :
  draws (randbelow n) (fun _ d e => d = 1%nat /\ e = O).
Proof.
  unfold randbelow. draw draws_next_py. apply draws_ret. split; lia.
Qed.

Lemma draws_random_choice {A} (d0 : A) l :
  draws (random_choice d0 l) (fun _ d e => d = 1%nat /\ e = O).
Proof.
  unfold random_choice. draw draws_randbelow. apply draws_ret. split; lia.
Qed.

Lemma draws_random_uniform a c :
  draws (random_uniform a c) (fun _ d e => d = 1%nat /\ e = O).
Proof.
  unfold random_uniform. draw draws_random_random. apply draws_ret.
  split; lia.
Qed.

Lemma draws_randbelow_range n :
  (0 < n)%nat ->
  draws (randbelow n) (fun k d e => (k < n)%nat /\ d = 1%nat /\ e = O).
Proof.
  intros Hn. unfold randbelow. draw draws_next_py. apply draws_ret.
  pose proof (N.mod_upper_bound a (N.of_nat n) ltac:(lia)).
  repeat split; lia.
Qed.

Lemma draws_random_randint a c :
  (a <= c)%nat ->
  draws (random_randint a c)
        (fun k d e => (a <= k <= c)%nat /\ d = 1%nat /\ e = O).
Proof.
  intros Hac. unfold random_randint.
  eapply draws_bind; [apply (draws_randbelow_range (c - a + 1)); lia|].
  cbv beta. intros k d e (Hk & -> & ->). apply draws_ret.
  repeat split; lia.
Qed.

Lemma draws_np_random_rand n :
  draws (np_random_rand n) (fun _ d e => d = O /\ e = n).
Proof.
  induction n as [|n IH]; cbn [np_random_rand].
  - apply draws_ret. split; reflexivity.
  - draw draws_next_np. draw IH. apply draws_ret. split; lia.
Qed.

Lemma draws_chord_vec root is_maj :
  draws (chord_vec root is_maj) (fun _ d e => d = 3%nat /\ e = O).
Proof.
  unfold chord_vec. cbv zeta.
  draw (@draws_random_choice (list nat)).
  draw draws_random_random. draw draws_random_random.
  apply draws_ret. split; lia.
Qed.

Lemma draws_mix_chords n r is_maj mix :
  draws (mix_chords n r is_maj mix) (fun _ d e => d = (3 * n)%nat /\ e = O).
Proof.
  revert mix. induction n as [|n IH]; intros mix; cbn [mix_chords].
  - apply draws_ret. split; lia.
  - draw draws_chord_vec. eapply draws_weaken; [apply IH|].
    cbv beta. intros ? ? ? [-> ->]. split; lia.
Qed.

Lemma draws_synth_sample cls :
  draws (synth_sample cls)
        (fun _ d e => (d = 6 \/ d = 9 \/ d = 12)%nat /\ e = 12%nat).
Proof.
  unfold synth_sample, synth_mix. cbv zeta.
  eapply draws_bind.
  - draw draws_random_uniform.
    eapply draws_bind; [apply (draws_random_randint 1 3); lia|].
    cbv beta. intros n d e (Hn & -> & ->).
    draw draws_mix_chords. draw (@draws_random_choice Z).
    draw draws_np_random_rand. apply draws_ret.
    instantiate (1 := fun _ d e => (d = 6 \/ d = 9 \/ d = 12)%nat
                                   /\ e = 12%nat).
    cbv beta. split; lia.
  - cbv beta. intros mix d e [Hd ->]. apply draws_ret. split; lia.
Qed.

(** X12. One call of [synth_sample] takes exactly 12 draws from NumPy's
    generator and 6, 9 or 12 from Python's (3 plus 3 per chord), and
    changes nothing else of the two generators. *)
Theorem synth_sample_draws (cls : nat) (g : rng) :
  let g' := snd (synth_sample cls g) in
  raw (py g') = raw (py g) /\ raw (npr g') = raw (npr g) /\
  pos (npr g') = (pos (npr g) + 12)%nat /\
  (pos (py g') = pos (py g) + 6 \/ pos (py g') = pos (py g) + 9
   \/ pos (py g') = pos (py g) + 12)%nat.
Proof.
  intros g'.
  destruct (draws_synth_sample cls g) as (d & e & [Hd ->] & Hadv).
  fold g' in Hadv. destruct Hadv as (H1 & H2 & H3 & H4).
  repeat split; try assumption. lia.
Qed.

(* ================================================================= *)
(** ** The shuffle and the draws of the dataset builder *)

Lemma draws_post {A} (m : M A) (P : A -> nat -> nat -> Prop)
  (Q : A -> Prop) :
  draws m P -> post m Q -> draws m (fun a d e => P a d e /\ Q a).
Proof.
  intros Hd Hp g. destruct (Hd g) as (d & e & HP & Hadv).
  exists d, e. split; [split; [exact HP|apply Hp]|exact Hadv].
Qed.

Lemma draws_np_interval hi :
  draws (np_interval hi) (fun _ d e => d = O /\ e = 1%nat).
Proof.
  unfold np_interval. draw draws_next_np. apply draws_ret. split; lia.
Qed.

Lemma draws_shuffle_from i x :
  draws (shuffle_from i x) (fun _ d e => d = O /\ e = i).
Proof.
  revert x. induction i as [|i IH]; intros x; cbn [shuffle_from].
  - apply draws_ret. split; reflexivity.
  - draw draws_np_interval. eapply draws_weaken; [apply IH|].
    cbv beta. intros ? ? ? [-> ->]. split; lia.
Qed.

(** X13. [np.random.shuffle] on an index list returns a permutation of it
    for every generator state, takes exactly [len - 1] draws from NumPy's
    generator (none for an empty or one-element list, which it returns
    unchanged) and none from Python's. *)
Theorem shuffle_permutes (x : list nat) (g : rng) :
  let y := fst (np_random_shuffle x g) in
  let g' := snd (np_random_shuffle x g) in
  Permutation y x /\ length y = length x /\
  py g' = py g /\ raw (npr g') = raw (npr g) /\
  pos (npr g') = (pos (npr g) + (length x - 1))%nat /\
  ((length x <= 1)%nat -> y = x /\ g' = g).
Proof.
  intros y g'.
  pose proof (np_random_shuffle_Permutation x g) as Hp. fold y in Hp.
  destruct (draws_shuffle_from (length x - 1) x g)
    as (d & e & [-> ->] & Hadv).
  change (shuffle_from (length x - 1) x g) with (np_random_shuffle x g)
    in Hadv. fold g' in Hadv.
  destruct Hadv as (H1 & H2 & H3 & H4).
  split; [exact Hp|]. split; [now apply Permutation_length|].
  split; [|split; [exact H3|split; [exact H4|]]].
  - destruct (py g') as [r' p'], (py g) as [r p]. cbn in *.
    f_equal; [exact H1|lia].
  - intros Hle. unfold y, g', np_random_shuffle.
    replace (length x - 1)%nat with O by lia. split; reflexivity.
Qed.

Lemma synth_sample_is_chroma cls : post (synth_sample cls) is_chroma.
Proof.
  intros g.
  destruct (synth_mix_shape cls g) as [Hl Hb].
  rewrite synth_sample_unfold. unfold renormalize.
  rewrite (clip_min_between 0.1 10) by (unfold floor_const; lra || exact Hb).
  set (mix := fst (synth_mix cls g)) in *.
  assert (Hlo : 1.2 <= vsum mix).
  { assert (H : Forall (fun x => 0.1 <= x) mix)
      by (eapply Forall_impl; [|exact Hb]; simpl; intros; lra).
    apply vsum_lower in H. rewrite Hl, INR_12 in H. lra. }
  assert (Hhi : vsum mix <= 120).
  { assert (H : Forall (fun x => x <= 10) mix)
      by (eapply Forall_impl; [|exact Hb]; simpl; intros; lra).
    apply vsum_upper in H. rewrite Hl, INR_12 in H. lra. }
  split; [now rewrite vdiv_length|]. split.
  - unfold vdiv. apply Forall_map. eapply Forall_impl; [|exact Hb].
    simpl. intros x Hx. unfold floor_const.
    apply Rmult_le_reg_r with (vsum mix); [lra|].
    replace (x / vsum mix * vsum mix) with x by (field; lra). nra.
  - rewrite vsum_vdiv. field. lra.
Qed.

Lemma draws_class_loop n c acc :
  draws (class_loop n c acc)
        (fun _ d e => (6 * n <= d <= 12 * n)%nat /\ e = (12 * n)%nat).
Proof.
  revert acc. induction n as [|n IH]; intros acc; cbn [class_loop].
  - apply draws_ret. split; lia.
  - eapply draws_bind; [apply draws_synth_sample|].
    cbv beta. intros x d e [Hd ->].
    eapply draws_weaken; [apply IH|].
    cbv beta. intros ? d' ? [Hd' ->]. split; lia.
Qed.

Lemma draws_classes_loop cs n acc :
  draws (classes_loop cs n acc)
        (fun _ d e => (6 * n * length cs <= d <= 12 * n * length cs)%nat
                      /\ e = (12 * n * length cs)%nat).
Proof.
  revert acc. induction cs as [|c cs IH]; intros acc; cbn [classes_loop].
  - apply draws_ret. cbn [length]. split; lia.
  - eapply draws_bind; [apply draws_class_loop|].
    cbv beta. intros acc' d e [Hd ->].
    eapply draws_weaken; [apply IH|].
    cbv beta. intros ? d' ? [Hd' ->]. cbn [length]. split; nia.
Qed.

Lemma draws_gen_samples n :
  draws (gen_samples n)
        (fun r d e => ((144 * n <= d <= 288 * n)%nat /\ e = (288 * n)%nat)
                      /\ length (fst r) = (24 * n)%nat).
Proof.
  apply draws_post.
  - unfold gen_samples. eapply draws_weaken; [apply draws_classes_loop|].
    cbv beta. rewrite length_seq. intros ? d ? [Hd ->]. split; lia.
  - eapply post_weaken; [apply gen_samples_counts|].
    cbv beta. intros r H. apply H.
Qed.

Lemma draws_make_dataset n :
  draws (make_dataset n)
        (fun _ d e => (144 * n <= d <= 288 * n)%nat
                      /\ e = (288 * n + (24 * n - 1))%nat).
Proof.
  unfold make_dataset.
  eapply draws_bind; [apply draws_gen_samples|].
  cbv beta. intros r d e [[Hd ->] Hlen].
  unfold shuffle_split. cbv zeta.
  eapply draws_bind.
  { unfold np_random_shuffle. apply draws_shuffle_from. }
  cbv beta. intros idx d' e' [-> ->]. apply draws_ret.
  rewrite length_seq, Hlen. split; lia.
Qed.

(** X14. [make_dataset(N)] takes [288 * N] draws from NumPy's generator for
    the noise and [24 * N - 1] for the shuffle, and between [144 * N] and
    [288 * N] from Python's; with [N = 0] it returns four empty arrays and
    leaves both generators as they were. *)
Theorem make_dataset_draws (N : nat) (g : rng) :
  let g' := snd (make_dataset N g) in
  raw (py g') = raw (py g) /\ raw (npr g') = raw (npr g) /\
  pos (npr g') = (pos (npr g) + 288 * N + (24 * N - 1))%nat /\
  (pos (py g) + 144 * N <= pos (py g') <= pos (py g) + 288 * N)%nat /\
  make_dataset 0 g = ((([], []), ([], [])), g).
Proof.
  intros g'.
  destruct (draws_make_dataset N g) as (d & e & [Hd ->] & Hadv).
  fold g' in Hadv. destruct Hadv as (H1 & H2 & H3 & H4).
  split; [exact H1|]. split; [exact H3|]. split; [lia|]. split; [lia|].
  unfold make_dataset, bind.
  change (gen_samples 0 g) with ((@nil (list R), @nil nat), g).
  cbn [fst snd]. unfold shuffle_split, bind, ret. cbn.
  now rewrite !firstn_nil, !skipn_nil.
Qed.

(* ================================================================= *)
(** ** What the rows of the dataset are *)

Lemma class_loop_chroma n c acc :
  Forall is_chroma (fst acc) ->
  post (class_loop n c acc) (fun r => Forall is_chroma (fst r)).
Proof.
  revert acc. induction n as [|n IH]; intros acc Hacc; cbn [class_loop].
  - now apply post_ret.
  - step synth_sample_is_chroma. intros x Hx. apply IH. cbn [fst].
    apply Forall_app. split; [exact Hacc|]. now constructor.
Qed.

Lemma classes_loop_chroma cs n acc :
  Forall is_chroma (fst acc) ->
  post (classes_loop cs n acc) (fun r => Forall is_chroma (fst r)).
Proof.
  revert acc. induction cs as [|c cs IH]; intros acc Hacc;
    cbn [classes_loop].
  - now apply post_ret.
  - eapply post_bind; [now apply class_loop_chroma|].
    intros acc' Hacc'. now apply IH.
Qed.

Lemma gen_samples_chroma n :
  post (gen_samples n) (fun r => Forall is_chroma (fst r)).
Proof. unfold gen_samples. apply classes_loop_chroma. constructor. Qed.

Lemma gen_samples_labels n :
  post (gen_samples n)
       (fun r => snd r = concat (map (fun c => repeat c n) (seq 0 24))).
Proof.
  unfold gen_samples. eapply post_weaken; [apply classes_loop_counts|].
  cbn [fst snd app]. intros r (_ & _ & H). exact H.
Qed.

Lemma blocks_below n cs bound :
  Forall (fun c => (c < bound)%nat) cs ->
  Forall (fun c => (c < bound)%nat) (concat (map (fun c => repeat c n) cs)).
Proof.
  induction 1 as [|c cs Hc _ IH]; cbn [map concat]; [constructor|].
  apply Forall_app. split; [|exact IH].
  apply Forall_forall. intros y Hy. apply repeat_spec in Hy. now subst.
Qed.

Lemma nth_blocks n m a i :
  (i < n * m)%nat ->
  nth i (concat (map (fun c => repeat c n) (seq a m))) O = (a + i / n)%nat.
Proof.
  revert a i. induction m as [|m IH]; intros a i Hi; [lia|].
  assert (Hn : (0 < n)%nat) by (destruct n; lia).
  cbn [seq map concat].
  destruct (Nat.lt_ge_cases i n) as [Hlt|Hge].
  - rewrite app_nth1 by (now rewrite repeat_length).
    rewrite (nth_indep _ O a) by (now rewrite repeat_length).
    rewrite nth_repeat, Nat.div_small by assumption. lia.
  - rewrite app_nth2 by (now rewrite repeat_length).
    rewrite repeat_length, IH by nia.
    replace i with ((i - n) + 1 * n)%nat at 2 by lia.
    rewrite Nat.div_add by lia. lia.
Qed.

Lemma vsum_one_hot_from a n c :
  vsum (map (fun k => if (k =? c)%nat then 1 else 0) (seq a n))
  = if ((a <=? c) && (c <? a + n))%nat then 1 else 0.
Proof.
  revert a. induction n as [|n IH]; intros a; cbn [seq map vsum].
  - destruct (a <=? c)%nat eqn:E1, (c <? a + 0)%nat eqn:E2; try reflexivity.
    apply Nat.leb_le in E1. apply Nat.ltb_lt in E2. lia.
  - rewrite IH.
    destruct (Nat.eqb_spec a c) as [->|Hne].
    + replace (S c <=? c)%nat with false
        by (symmetry; apply Nat.leb_gt; lia).
      replace (c <=? c)%nat with true by (symmetry; apply Nat.leb_le; lia).
      replace (c <? c + S n)%nat with true
        by (symmetry; apply Nat.ltb_lt; lia).
      cbn [andb]. lra.
    + replace (S a + n)%nat with (a + S n)%nat by lia.
      destruct (c <? a + S n)%nat; rewrite ?andb_false_r, ?andb_true_r.
      * destruct (Nat.leb_spec (S a) c), (Nat.leb_spec a c);
          try lia; lra.
      * lra.
Qed.

Lemma one_hot_row c :
  (c < 24)%nat ->
  length (one_hot 24 c) = 24%nat /\ vsum (one_hot 24 c) = 1 /\
  forall k, (k < 24)%nat ->
            nth k (one_hot 24 c) 0 = if (k =? c)%nat then 1 else 0.
Proof.
  intros Hc. unfold one_hot. split; [|split].
  - now rewrite length_map, length_seq.
  - rewrite vsum_one_hot_from.
    replace (0 <=? c)%nat with true by (symmetry; apply Nat.leb_le; lia).
    replace (c <? 0 + 24)%nat with true by (symmetry; apply Nat.ltb_lt; lia).
    reflexivity.
  - intros k Hk.
    now rewrite (nth_map_seq (fun k => if (k =? c)%nat then 1 else 0)).
Qed.

Lemma make_dataset_parts N g :
  let xs := fst (fst (gen_samples N g)) in
  let ys := snd (fst (gen_samples N g)) in
  let n := (9 * (24 * N) / 10)%nat in
  exists idx,
    Permutation idx (seq 0 (24 * N)) /\
    fst (make_dataset N g)
    = ((firstn n (take_idx [] xs idx),
        firstn n (take_idx [] (to_categorical ys 24) idx)),
       (skipn n (take_idx [] xs idx),
        skipn n (take_idx [] (to_categorical ys 24) idx))).
Proof.
  intros xs ys n.
  destruct (gen_samples_counts N g) as (Hxl & _ & _). fold xs in Hxl.
  unfold make_dataset, bind. subst xs ys.
  destruct (gen_samples N g) as [[xs ys] g1]. cbn [fst snd] in *.
  unfold shuffle_split, bind, ret.
  pose proof (np_random_shuffle_Permutation (seq 0 (length xs)) g1) as Hp.
  destruct (np_random_shuffle (seq 0 (length xs)) g1) as [idx g2].
  cbn [fst snd] in *. exists idx. split; [now rewrite <- Hxl|].
  assert (Hlen : length (take_idx [] xs idx) = length xs).
  { unfold take_idx.
    now rewrite length_map, (Permutation_length Hp), length_seq. }
  rewrite !Hlen, split_point_floor, Hxl. reflexivity.
Qed.

Lemma take_idx_Forall {A} (P : A -> Prop) (d : A) xs idx :
  Forall P xs -> Forall (fun i => (i < length xs)%nat) idx ->
  Forall P (take_idx d xs idx).
Proof.
  intros Hxs Hidx. unfold take_idx. apply Forall_map.
  eapply Forall_impl; [|exact Hidx]. cbv beta. intros i Hi.
  apply (proj1 (Forall_forall P xs) Hxs). now apply nth_In.
Qed.

Lemma Forall_firstn_skipn {A} (P : A -> Prop) n (l : list A) :
  Forall P l -> Forall P (firstn n l) /\ Forall P (skipn n l).
Proof.
  intros H. rewrite <- (firstn_skipn n l) in H.
  now apply Forall_app in H.
Qed.

(** X15. Every row of the training and validation inputs that
    [make_dataset] returns is a renormalised chroma vector (12 entries, each
    at least 1e-6, summing to 1), and every row of the two label arrays is
    the one-hot row of a class below 24: 24 entries that sum to 1. *)
Theorem dataset_rows (N : nat) (g : rng) :
  let ds := fst (make_dataset N g) in
  Forall is_chroma (fst (fst ds)) /\ Forall is_chroma (fst (snd ds)) /\
  Forall is_label_row (snd (fst ds)) /\ Forall is_label_row (snd (snd ds)) /\
  (forall row, is_label_row row -> length row = 24%nat /\ vsum row = 1).
Proof.
  intros ds.
  destruct (make_dataset_parts N g) as (idx & Hp & Hds).
  cbv zeta in Hds. fold ds in Hds.
  destruct (gen_samples_counts N g) as (Hxl & Hyl & _).
  pose proof (gen_samples_chroma N g) as Hxs.
  pose proof (gen_samples_labels N g) as Hys. cbv beta in Hxs, Hys.
  set (xs := fst (fst (gen_samples N g))) in *.
  set (ys := snd (fst (gen_samples N g))) in *.
  assert (Hidx : Forall (fun i => (i < 24 * N)%nat) idx).
  { apply Forall_forall. intros i Hi.
    apply (Permutation_in _ Hp) in Hi. apply in_seq in Hi. lia. }
  assert (Hx : Forall is_chroma (take_idx [] xs idx)).
  { apply take_idx_Forall; [exact Hxs|]. now rewrite Hxl. }
  assert (Hlab : Forall is_label_row (to_categorical ys 24)).
  { unfold to_categorical. apply Forall_map. rewrite Hys.
    eapply Forall_impl;
      [|apply (blocks_below N (seq 0 24) 24); apply Forall_forall;
        intros c Hc; apply in_seq in Hc; lia].
    cbv beta. intros c Hc. now exists c. }
  assert (Hy : Forall is_label_row (take_idx [] (to_categorical ys 24) idx)).
  { apply take_idx_Forall; [exact Hlab|].
    now rewrite to_categorical_length, Hyl. }
  rewrite Hds. cbn [fst snd].
  destruct (Forall_firstn_skipn is_chroma (9 * (24 * N) / 10) _ Hx).
  destruct (Forall_firstn_skipn is_label_row (9 * (24 * N) / 10) _ Hy).
  repeat (split; [assumption|]).
  intros row (c & Hc & ->). destruct (one_hot_row c Hc) as (Hr1 & Hr2 & _).
  split; assumption.
Qed.

(** X16. Before the shuffle the samples are in class order: with [N]
    samples per class, the label at position [i] (below [24 * N]) is
    [i / N]. *)
Theorem labels_in_class_order (N i : nat) (g : rng)
  (Hi : (i < 24 * N)%nat) :
  nth i (snd (fst (gen_samples N g))) O = (i / N)%nat.
Proof.
  rewrite (gen_samples_labels N g).
  rewrite nth_blocks by lia. reflexivity.
Qed.

Lemma labels_in_class_order_witness :
  (7 < 24 * 3)%nat /\ nth 7 (snd (fst (gen_samples 3 demo_rng))) O = 2%nat.
Proof.
  split; [lia|].
  exact (labels_in_class_order 3 7 demo_rng ltac:(lia)).
Defined.

(* ================================================================= *)
(** ** The export of the trained network *)

Lemma from_end_app {A} (l : list A) (tl : list A) k :
  (1 <= k <= length tl)%nat -> from_end (l ++ tl) k = from_end tl k.
Proof.
  intros Hk. unfold from_end. rewrite length_app.
  replace (k <=? length l + length tl)%nat with true
    by (symmetry; apply Nat.leb_le; lia).
  replace (k <=? length tl)%nat with true
    by (symmetry; apply Nat.leb_le; lia).
  rewrite nth_error_app2 by lia. f_equal. lia.
Qed.

Lemma dense_layers_none l :
  forallb (fun L => negb (is_dense L)) l = true -> dense_layers l = [].
Proof.
  unfold dense_layers. induction l as [|L l IH]; intros H; [reflexivity|].
  cbn [forallb] in H. apply andb_true_iff in H. destruct H as [HL Hl].
  cbn [filter]. apply negb_true_iff in HL. rewrite HL. now apply IH.
Qed.

Lemma dense_layers_all_dense l :
  Forall (fun L => is_dense L = true) (dense_layers l).
Proof.
  unfold dense_layers. apply Forall_forall. intros L HL.
  now apply filter_In in HL.
Qed.

Lemma frozen_weights_short layers :
  (length (dense_layers layers) < 2)%nat -> frozen_weights layers = None.
Proof.
  intros H. unfold frozen_weights, from_end.
  replace (2 <=? length (dense_layers layers))%nat with false
    by (symmetry; apply Nat.leb_gt; lia).
  reflexivity.
Qed.

(** X17. The export takes its weights from the last two [Dense] layers of
    the model, in order, whatever other layers (input, dropout) stand before,
    between or after them; with fewer than two [Dense] layers the selection
    fails.  On the network the script builds it returns the 12-to-64 and
    the 64-to-24 layer and leaves the dropout layer out. *)
Theorem export_takes_last_two_dense
  (pre mid post : list layer) (W1 W2 : list (list R)) (b1 b2 : list R)
  (Hmid : forallb (fun L => negb (is_dense L)) mid = true)
  (Hpost : forallb (fun L => negb (is_dense L)) post = true) :
  frozen_weights (pre ++ [Dense W1 b1] ++ mid ++ [Dense W2 b2] ++ post)
  = Some ((W1, b1), (W2, b2)) /\
  frozen_weights (script_layers W1 b1 W2 b2) = Some ((W1, b1), (W2, b2)) /\
  (forall layers, (length (dense_layers layers) < 2)%nat ->
                  frozen_weights layers = None).
Proof.
  split; [|split; [reflexivity|apply frozen_weights_short]].
  unfold frozen_weights, dense_layers.
  rewrite !filter_app. cbn [filter is_dense].
  fold (dense_layers mid). fold (dense_layers post).
  rewrite (dense_layers_none mid Hmid), (dense_layers_none post Hpost).
  cbn [app].
  rewrite !from_end_app by (cbn [length]; lia).
  reflexivity.
Qed.

Lemma export_takes_last_two_dense_witness :
  forallb (fun L => negb (is_dense L)) [Dropout 0.10] = true /\
  frozen_weights ([InputLayer 12] ++ [Dense [[1]] [2]] ++ [Dropout 0.10]
                  ++ [Dense [[3]] [4]] ++ [Dropout 0.5])
  = Some (([[1]], [2]), ([[3]], [4])).
Proof.
  split; [reflexivity|].
  exact (proj1 (export_takes_last_two_dense [InputLayer 12] [Dropout 0.10]
                  [Dropout 0.5] [[1]] [[3]] [2] [4] eq_refl eq_refl)).
Defined.

Lemma relu_nonneg v : Forall (fun x => 0 <= x) (Train.relu v).
Proof.
  unfold Train.relu. apply Forall_map, Forall_forall.
  intros x _. apply Rmax_l.
Qed.

Lemma relu_of_nonneg v : Forall (fun x => 0 <= x) v -> Train.relu v = v.
Proof.
  unfold Train.relu. induction 1 as [|a v Ha _ IH]; simpl; [reflexivity|].
  rewrite IH. f_equal. now apply Rmax_right.
Qed.

Lemma relu_of_nonpos v :
  Forall (fun x => x <= 0) v -> Train.relu v = zeros (length v).
Proof.
  unfold Train.relu, zeros. induction 1 as [|a v Ha _ IH]; simpl;
    [reflexivity|].
  rewrite IH. f_equal. now apply Rmax_left.
Qed.

Lemma vecmat_zeros ncols n X : vecmat ncols (zeros n) X = zeros ncols.
Proof.
  unfold vecmat.
  assert (H : forall j,
             vsum (zipWith (fun xi row => xi * nth j row 0) (zeros n) X) = 0).
  { intros j. unfold zeros. revert X.
    induction n as [|n IH]; intros [|row X]; simpl; try lra.
    rewrite IH. lra. }
  unfold zeros at 2. generalize 0%nat.
  induction ncols as [|m IH]; intros a; simpl; [reflexivity|].
  now rewrite H, IH.
Qed.

Lemma vadd_zeros_l v : vadd (zeros (length v)) v = v.
Proof.
  unfold vadd, zeros. induction v as [|a v IH]; simpl; [reflexivity|].
  rewrite IH. f_equal. lra.
Qed.

(** X18. In the exported graph of the trained network the hidden
    activations are never negative; on an input whose 64 pre-activations are
    all non-positive the 24 scores are exactly the output bias, whatever the
    output weights; and on an input whose pre-activations are all
    non-negative the graph is the two affine maps composed. *)
Theorem trained_graph_relu (W1 W2 : list (list R)) (b1 b2 row : list R)
  (Hb2 : length b2 = 24%nat) :
  Forall (fun h => 0 <= h) (Train.relu (Train.pre_activation W1 b1 row)) /\
  (Forall (fun h => h <= 0) (Train.pre_activation W1 b1 row) ->
   Train.model_fn W1 b1 W2 b2 [row] = [b2]) /\
  (Forall (fun h => 0 <= h) (Train.pre_activation W1 b1 row) ->
   Train.model_fn W1 b1 W2 b2 [row]
   = [vadd (vecmat 24 (Train.pre_activation W1 b1 row) W2) b2]).
Proof.
  split; [apply relu_nonneg|]. split; intros H.
  - unfold Train.model_fn. cbn [map].
    rewrite (relu_of_nonpos _ H), vecmat_zeros.
    rewrite <- Hb2. now rewrite vadd_zeros_l.
  - unfold Train.model_fn. cbn [map]. now rewrite (relu_of_nonneg _ H).
Qed.

Lemma trained_graph_relu_witness :
  length (zeros 24) = 24%nat /\
  Forall (fun h => 0 <= h)
         (Train.relu (Train.pre_activation [] (zeros 64) (zeros 12))).
Proof.
  split; [reflexivity|].
  exact (proj1 (trained_graph_relu [] [] (zeros 64) (zeros 24) (zeros 12)
                  eq_refl)).
Defined.

(* ================================================================= *)
(** ** Where a template peaks *)

Lemma minr_peak idx :
  (1 <= idx < 12)%nat -> nth idx minr 0 < 0.41 /\ 0.47 < nth 0 minr 0.
Proof.
  intros Hidx.
  pose proof norm_min_bounds as [Hlo Hhi].
  unfold minr. set (n := norm min_lit) in *.
  unfold vdiv, min_lit. cbn [map]. split.
  - destruct idx as [|idx]; [lia|].
    do 11 (destruct idx as [|idx];
           [cbn [nth]; apply (Rmult_lt_reg_r n); [lra|];
            match goal with |- ?a / n * n < _ =>
              replace (a / n * n) with a by (field; lra) end; lra|]).
    lia.
  - cbn [nth]. apply (Rmult_lt_reg_r n); [lra|].
    replace (6.33 / n * n) with 6.33 by (field; lra). lra.
Qed.

Lemma baseProfile_peak k idx :
  (1 <= idx < 12)%nat -> nth idx (baseProfile k) 0 < nth 0 (baseProfile k) 0.
Proof.
  intros Hidx. unfold baseProfile. destruct (k mod 2 =? 0)%nat.
  - destruct (maj_peak idx Hidx). lra.
  - destruct (minr_peak idx Hidx). lra.
Qed.

Lemma peak_index_ok :
  forallb (fun t =>
    forallb (fun i =>
      Bool.eqb ((i + t) mod 12 =? 0)%nat (i =? (12 - t) mod 12)%nat)
      (seq 0 12))
    (seq 0 12) = true.
Proof. vm_compute. reflexivity. Qed.

Lemma peak_index t i :
  (t < 12)%nat -> (i < 12)%nat ->
  ((i + t) mod 12 = 0 <-> i = (12 - t) mod 12)%nat.
Proof.
  intros Ht Hi.
  pose proof peak_index_ok as H. rewrite forallb_forall in H.
  specialize (H t ltac:(apply in_seq; lia)).
  rewrite forallb_forall in H.
  specialize (H i ltac:(apply in_seq; lia)).
  apply Bool.eqb_prop in H.
  rewrite <- !Nat.eqb_eq, H. reflexivity.
Qed.

(** X19. Each of the 24 templates has a single largest entry: the tonic
    weight of its base profile, which sits at index [(12 - tonic) mod 12]
    where [tonic = keyClass / 2]; every other entry is strictly smaller. *)
Theorem template_peak (keyClass i : nat)
  (Hk : (keyClass < 24)%nat) (Hi : (i < 12)%nat)
  (Hne : i <> ((12 - keyClass / 2) mod 12)%nat) :
  nth i (rotatedProfile keyClass) 0
  < nth ((12 - keyClass / 2) mod 12) (rotatedProfile keyClass) 0 /\
  nth ((12 - keyClass / 2) mod 12) (rotatedProfile keyClass) 0
  = nth 0 (baseProfile keyClass) 0.
Proof.
  pose proof (Nat.Div0.div_lt_upper_bound keyClass 2 12 ltac:(lia)) as Ht.
  rewrite rotatedProfile_tonic_weight by assumption.
  split; [|reflexivity].
  rewrite rotatedProfile_nth by assumption.
  apply baseProfile_peak.
  pose proof (Nat.mod_upper_bound (i + keyClass / 2) 12 ltac:(lia)).
  pose proof (peak_index (keyClass / 2) i Ht Hi) as Hiff.
  destruct ((i + keyClass / 2) mod 12)%nat eqn:E; [|lia].
  exfalso. apply Hne. now apply Hiff.
Qed.

Lemma template_peak_witness :
  (2 < 24)%nat /\ (1 < 12)%nat /\ 1%nat <> ((12 - 2 / 2) mod 12)%nat /\
  nth 1 (rotatedProfile 2) 0 < nth 11 (rotatedProfile 2) 0.
Proof.
  split; [lia|]. split; [lia|]. split; [simpl; lia|].
  exact (proj1 (template_peak 2 1 ltac:(lia) ltac:(lia) ltac:(simpl; lia))).
Defined.

(* ================================================================= *)
(** ** Transposition *)

Lemma zipWith_app {A B C} (f : A -> B -> C) u1 u2 v1 v2 :
  length u1 = length v1 ->
  zipWith f (u1 ++ u2) (v1 ++ v2) = zipWith f u1 v1 ++ zipWith f u2 v2.
Proof.
  revert v1. induction u1 as [|a u1 IH]; intros [|c v1] Hl; simpl in *;
    try discriminate; [reflexivity|].
  rewrite IH by lia. reflexivity.
Qed.

Lemma zipWith_firstn {A B C} (f : A -> B -> C) k u v :
  zipWith f (firstn k u) (firstn k v) = firstn k (zipWith f u v).
Proof.
  revert u v. induction k as [|k IH]; intros [|a u] [|c v]; simpl;
    try reflexivity. now rewrite IH.
Qed.

Lemma zipWith_skipn {A B C} (f : A -> B -> C) k u v :
  length u = length v ->
  zipWith f (skipn k u) (skipn k v) = skipn k (zipWith f u v).
Proof.
  revert u v. induction k as [|k IH]; intros [|a u] [|c v] Hl; simpl in *;
    try discriminate; try reflexivity. apply IH. lia.
Qed.

Lemma dot_rot_rot x v t :
  length x = length v -> dot (rot x t) (rot v t) = dot x v.
Proof.
  intros Hl. unfold dot, rot.
  rewrite zipWith_app by (rewrite !length_skipn; lia).
  rewrite zipWith_skipn, zipWith_firstn by assumption.
  apply vsum_Permutation.
  rewrite Permutation_app_comm, firstn_skipn. reflexivity.
Qed.

(** X20. The analytic classifier is equivariant under transposition:
    rotating a 12-bin chroma vector by [t] places moves every score to the
    class of the same mode [t mod 12] tonic indices further (class index
    plus [2 * (t mod 12)], mod 24). *)
Theorem analytic_scores_transpose (x : vec) (j : nat) (t : Z)
  (Hx : length x = 12%nat) (Hj : (j < 24)%nat) :
  nth ((j + 2 * Z.to_nat (t mod 12)) mod 24) (logits (rot x t)) 0
  = nth j (logits x) 0.
Proof.
  rewrite !logits_dot
    by (assumption || (apply Nat.mod_upper_bound; lia)).
  rewrite <- rot_rotatedProfile by assumption.
  apply dot_rot_rot. now rewrite rotatedProfile_length.
Qed.

Lemma analytic_scores_transpose_witness :
  length [1; 0; 0; 0; 2; 0; 0; 3; 0; 0; 0; 0] = 12%nat /\ (5 < 24)%nat /\
  nth ((5 + 2 * Z.to_nat (3 mod 12)) mod 24)
      (logits (rot [1; 0; 0; 0; 2; 0; 0; 3; 0; 0; 0; 0] 3)) 0
  = nth 5 (logits [1; 0; 0; 0; 2; 0; 0; 3; 0; 0; 0; 0]) 0.
Proof.
  split; [reflexivity|]. split; [lia|].
  exact (analytic_scores_transpose [1; 0; 0; 0; 2; 0; 0; 3; 0; 0; 0; 0] 5 3
           eq_refl ltac:(lia)).
Defined.

Lemma step_index_ok :
  forallb (fun a =>
    forallb (fun j =>
      Bool.eqb ((a + 1) mod 12 =? j)%nat (a =? (j + 11) mod 12)%nat)
      (seq 0 12))
    (seq 0 12) = true.
Proof. vm_compute. reflexivity. Qed.

Lemma step_index a j :
  (a < 12)%nat -> (j < 12)%nat ->
  ((a + 1) mod 12 = j <-> a = (j + 11) mod 12)%nat.
Proof.
  intros Ha Hj.
  pose proof step_index_ok as H. rewrite forallb_forall in H.
  specialize (H a ltac:(apply in_seq; lia)).
  rewrite forallb_forall in H.
  specialize (H j ltac:(apply in_seq; lia)).
  apply Bool.eqb_prop in H.
  rewrite <- !Nat.eqb_eq, H. reflexivity.
Qed.

Lemma count_shifted r tri j :
  (j < 12)%nat ->
  count_occ Nat.eq_dec (map (fun s => ((r + 1 + s) mod 12)%nat) tri) j
  = count_occ Nat.eq_dec (map (fun s => ((r + s) mod 12)%nat) tri)
              ((j + 11) mod 12).
Proof.
  intros Hj. induction tri as [|s tri IH]; cbn [map count_occ];
    [reflexivity|].
  rewrite IH.
  assert (Ha : ((r + s) mod 12 < 12)%nat)
    by (apply Nat.mod_upper_bound; lia).
  assert (Hs : ((r + 1 + s) mod 12 = ((r + s) mod 12 + 1) mod 12)%nat).
  { rewrite Nat.Div0.add_mod_idemp_l. f_equal. lia. }
  pose proof (step_index ((r + s) mod 12) j Ha Hj) as Hiff.
  rewrite <- Hs in Hiff.
  destruct (Nat.eq_dec ((r + 1 + s) mod 12) j) as [H1|H1],
           (Nat.eq_dec ((r + s) mod 12) ((j + 11) mod 12)) as [H2|H2];
    try reflexivity; exfalso; tauto.
Qed.

(** X21. Raising the tonic by one moves the triad energy of [chord_vec]
    one index up ([np.roll] by +1) and likewise its two colour tones, but
    moves the rotated profile one index down ([np.roll] by -1): the two
    parts that [synth_sample] adds into one vector shift in opposite
    directions. *)
Theorem tonic_step_directions (r : nat) (tri : list nat) (is_maj : bool)
  (base : vec) (Hbase : length base = 12%nat) :
  triad_vec (r + 1) tri = roll (triad_vec r tri) 1 /\
  leading_pc (r + 1) is_maj = ((leading_pc r is_maj + 1) mod 12)%nat /\
  subdom_pc (r + 1) = ((subdom_pc r + 1) mod 12)%nat /\
  rot base (Z.of_nat (r + 1)) = roll (rot base (Z.of_nat r)) (-1).
Proof.
  assert (Hlen : forall q, length (triad_vec q tri) = 12%nat)
    by (intros q; apply triad_vec_shape).
  split; [|split; [|split]].
  - apply nth_ext with (d := 0) (d' := 0).
    + now rewrite roll_length, !Hlen.
    + intros j Hj. rewrite Hlen in Hj.
      rewrite roll_rot, nth_rot by (auto using Hlen).
      change (Z.to_nat (- (1) mod 12)) with 11%nat.
      rewrite !triad_vec_nth. f_equal. now apply count_shifted.
  - unfold leading_pc. rewrite Nat.Div0.add_mod_idemp_l. f_equal. lia.
  - unfold subdom_pc. rewrite Nat.Div0.add_mod_idemp_l. f_equal. lia.
  - rewrite roll_rot by (now rewrite rot_length).
    rewrite rot_rot by assumption. f_equal. lia.
Qed.

Lemma tonic_step_directions_witness :
  length [1; 2; 3; 4; 5; 6; 7; 8; 9; 10; 11; 12] = 12%nat /\
  triad_vec (4 + 1) [0; 4; 7]%nat = roll (triad_vec 4 [0; 4; 7]%nat) 1.
Proof.
  split; [reflexivity|].
  exact (proj1 (tonic_step_directions 4 [0; 4; 7]%nat true
                  [1; 2; 3; 4; 5; 6; 7; 8; 9; 10; 11; 12] eq_refl)).
Defined.
